(** * Extractive text summarizer (src/app.py): shallow embedding and properties

    The embedding follows [src/app.py]: the two module-level tokenizers
    ([simple_sentence_tokenize], [simple_word_tokenize]) and the methods of
    [TextSummarizer] ([preprocess_text], [extractive_summarize],
    [abstractive_summarize]).

    Python strings are sequences of Unicode code points; a code point is a
    number of type [N].  The whitespace class used by [\s], [str.split] and
    [str.strip] is the interpreter's fixed list and is written out.  What the
    interpreter takes from the Unicode database (the alphanumeric class
    behind [\w], [str.lower]), the text of exception messages and the hosted
    language model are fields of the class [Runtime]. *)

From Stdlib Require Import Strings.String Strings.Ascii.
From Stdlib Require Import List ZArith NArith Bool Lia Permutation Sorted.
Import ListNotations.
Local Open Scope list_scope.

(* ================================================================== *)
(** ** Strings *)

Definition char := N.
Definition str := list char.

(** A literal of the source, as code points. *)
Definition lit (s : string) : str :=
  map N_of_ascii (list_ascii_of_string s).
Arguments lit s%_string.

Fixpoint str_eqb (a b : str) : bool :=
  match a, b with
  | [], [] => true
  | x :: a', y :: b' => N.eqb x y && str_eqb a' b'
  | _, _ => false
  end.

(** Truth value of a string: [if s] holds for every non-empty string. *)
Definition truthy (s : str) : bool :=
  match s with [] => false | _ :: _ => true end.

(** [len(l)] as a Python integer. *)
Definition len {A} (l : list A) : Z := Z.of_nat (length l).

(** [Py_UNICODE_ISSPACE]: the code points matched by [\s] and treated as
    whitespace by [str.split()] and [str.strip()]. *)
Definition isspace (c : char) : bool :=
  ((9 <=? c) && (c <=? 13) || (28 <=? c) && (c <=? 32)
   || (c =? 133) || (c =? 160) || (c =? 5760)
   || (8192 <=? c) && (c <=? 8202)
   || (c =? 8232) || (c =? 8233) || (c =? 8239) || (c =? 8287)
   || (c =? 12288))%N.

Definition SPACE : char := 32%N.
Definition PERIOD : char := 46%N.
Definition UNDERSCORE : char := 95%N.

(** The character class [[.!?]]. *)
Definition is_terminator (c : char) : bool :=
  ((c =? 46) || (c =? 33) || (c =? 63))%N.

(** [s.lstrip()], [s.rstrip()], [s.strip()] without argument. *)
Fixpoint lstrip (s : str) : str :=
  match s with
  | [] => []
  | c :: rest => if isspace c then lstrip rest else s
  end.

Definition rstrip (s : str) : str := rev (lstrip (rev s)).

Definition strip (s : str) : str := rstrip (lstrip s).

(** [s.split()] without argument: the maximal runs of non-whitespace. *)
Fixpoint split (s : str) : list str :=
  match s with
  | [] => []
  | c :: rest =>
      if isspace c then split rest
      else match rest with
           | [] => [[c]]
           | d :: _ =>
               if isspace d then [c] :: split rest
               else match split rest with
                    | w :: ws => (c :: w) :: ws
                    | [] => [[c]]
                    end
           end
  end.

(** [sep.join(l)]. *)
Fixpoint join (sep : str) (l : list str) : str :=
  match l with
  | [] => []
  | x :: rest =>
      match rest with
      | [] => x
      | _ :: _ => x ++ sep ++ join sep rest
      end
  end.

(** [re.sub(r'\s+', ' ', text)]: every maximal whitespace run becomes one
    space.  [in_run] tells that the previous character was whitespace. *)
Fixpoint sub_ws_from (in_run : bool) (text : str) : str :=
  match text with
  | [] => []
  | c :: rest =>
      if isspace c
      then if in_run then sub_ws_from true rest
           else SPACE :: sub_ws_from true rest
      else c :: sub_ws_from false rest
  end.

Definition sub_ws (text : str) : str := sub_ws_from false text.

(** [re.split('[.!?]+', text)]: the fragments between maximal runs of
    terminators; a run at either end leaves an empty fragment there. *)
Fixpoint re_split_from (in_run : bool) (text : str) : list str :=
  match text with
  | [] => [[]]
  | c :: rest =>
      if is_terminator c
      then if in_run then re_split_from true rest
           else [] :: re_split_from true rest
      else match re_split_from false rest with
           | f :: fs => (c :: f) :: fs
           | [] => [[c]]
           end
  end.

Definition re_split (text : str) : list str := re_split_from false text.

(* ================================================================== *)
(** ** Exceptions *)

Inductive exn : Type :=
| ValueError (x : str)        (* list.index: x is not in the list *)
| KeyError (k : str)          (* d[k]: k is not a key *)
| ServiceError (what : str)   (* anything the hosted model call raises *)
| UnboundLocalError (name : str). (* a local name read before it is bound *)

Inductive result (A : Type) : Type :=
| Ok (a : A)
| Raise (e : exn).
Arguments Ok {A} a.
Arguments Raise {A} e.

Definition bind {A B} (m : result A) (k : A -> result B) : result B :=
  match m with
  | Ok a => k a
  | Raise e => Raise e
  end.

Notation "x <- m ;; k" := (bind m (fun x => k))
  (at level 61, m at next level, right associativity).

Fixpoint mapM {A B} (f : A -> result B) (l : list A) : result (list B) :=
  match l with
  | [] => Ok []
  | x :: rest => y <- f x ;; ys <- mapM f rest ;; Ok (y :: ys)
  end.

(* ================================================================== *)
(** ** The interpreter and the outside world *)

Class Runtime : Type := {
  (** [Py_UNICODE_ISALNUM], the Unicode part of [\w]. *)
  isalnum : char -> bool;
  (** [str.lower]. *)
  lower : str -> str;
  (** [str(e)] for a caught exception. *)
  exn_str : exn -> str;
  (** [Groq(api_key=k).chat.completions.create(...)] on one user message,
      with the source's fixed model and decoding parameters, followed by
      [.choices[0].message.content]. *)
  chat_completion : str -> str -> result str
}.

Section Tokenizers.
Context {R : Runtime}.

(** [\w]. *)
Definition is_word (c : char) : bool := isalnum c || N.eqb c UNDERSCORE.

(** [re.sub(r'[^\w\s]', ' ', text)]. *)
Definition sub_nonword (text : str) : str :=
  map (fun c => if is_word c || isspace c then c else SPACE) text.

(** [re.sub(r'[^\w\s.]', '', text)]. *)
Definition keeps (c : char) : bool :=
  is_word c || isspace c || N.eqb c PERIOD.

Definition sub_noise (text : str) : str := filter keeps text.

(** Lines 61-65. *)
Definition simple_sentence_tokenize (text : str) : list str :=
  let text := sub_ws text in
  let sentences := re_split text in
  map strip (filter (fun s => truthy (strip s)) sentences).

(** Lines 67-70. *)
Definition simple_word_tokenize (text : str) : list str :=
  let text := sub_nonword text in
  split (lower text).

End Tokenizers.

(* ================================================================== *)
(** ** Containers of the interpreter *)

(** A [dict] keeps its keys in insertion order; assigning to an existing key
    replaces the value where the key already stands. *)
Definition dict (V : Type) : Type := list (str * V).

Fixpoint dict_get {V} (d : dict V) (k : str) : option V :=
  match d with
  | [] => None
  | (k', v) :: rest => if str_eqb k' k then Some v else dict_get rest k
  end.

(** [k in d]. *)
Definition dict_contains {V} (d : dict V) (k : str) : bool :=
  match dict_get d k with Some _ => true | None => false end.

(** [d.get(k, default)]. *)
Definition dict_get_default {V} (d : dict V) (k : str) (default : V) : V :=
  match dict_get d k with Some v => v | None => default end.

(** [d[k]]. *)
Definition dict_getitem {V} (d : dict V) (k : str) : result V :=
  match dict_get d k with Some v => Ok v | None => Raise (KeyError k) end.

(** [d[k] = v]. *)
Fixpoint dict_set {V} (d : dict V) (k : str) (v : V) : dict V :=
  match d with
  | [] => [(k, v)]
  | (k', v') :: rest =>
      if str_eqb k' k then (k', v) :: rest else (k', v') :: dict_set rest k v
  end.

(** [d.items()]. *)
Definition items {V} (d : dict V) : list (str * V) := d.

Definition keys {V} (d : dict V) : list str := map fst d.

(** [w in s] for a set of strings; the code never iterates over the set. *)
Definition set_contains (s : list str) (w : str) : bool :=
  existsb (str_eqb w) s.

(** [l.index(x)]: position of the first element equal to [x]. *)
Fixpoint index (l : list str) (x : str) : result Z :=
  match l with
  | [] => Raise (ValueError x)
  | y :: rest =>
      if str_eqb y x then Ok 0%Z else k <- index rest x ;; Ok (k + 1)%Z
  end.

(** [l[:n]]; a negative [n] counts from the end. *)
Definition slice_to {A} (l : list A) (n : Z) : list A :=
  if (n <? 0)%Z then firstn (Z.to_nat (len l + n)) l
  else firstn (Z.to_nat n) l.

(** [sorted(l, key=key, reverse=reverse)]: stable in both directions, so
    elements with equal keys keep the order they have in [l]. *)
Section Sorting.
Context {A : Type} (key : A -> Z) (reverse : bool).

Definition goes_first (x y : A) : bool :=
  if reverse then (key y <=? key x)%Z else (key x <=? key y)%Z.

Fixpoint insert_sorted (x : A) (l : list A) : list A :=
  match l with
  | [] => [x]
  | y :: rest =>
      if goes_first x y then x :: l else y :: insert_sorted x rest
  end.

Fixpoint sorted (l : list A) : list A :=
  match l with
  | [] => []
  | x :: rest => insert_sorted x (sorted rest)
  end.

(** The order the result is sorted by. *)
Definition before (x y : A) : Prop := goes_first x y = true.

End Sorting.

(** [sorted] with a key function that can raise: the keys of all elements
    are computed first, then the elements are ordered by them. *)
Definition sorted_by {A} (key : A -> result Z) (l : list A)
  : result (list A) :=
  keyed <- mapM (fun x => k <- key x ;; Ok (k, x)) l ;;
  Ok (map snd (sorted fst false keyed)).

(** A [for] loop that threads an accumulator and can raise. *)
Fixpoint for_each {A S} (body : S -> A -> result S) (l : list A) (s : S)
  : result S :=
  match l with
  | [] => Ok s
  | x :: rest => s' <- body s x ;; for_each body rest s'
  end.

(* ================================================================== *)
(** ** class TextSummarizer *)

Record TextSummarizer : Type := {
  groq_client : str -> result str;
  stop_words : list str
}.

Definition NEWLINE : char := 10%N.

Definition TOO_SHORT : str := lit "Text is too short to summarize.".

Section Summarizer.
Context {R : Runtime}.

(** Lines 73-80. *)
Definition __init__ (groq_api_key : str) : TextSummarizer :=
  {| groq_client := chat_completion groq_api_key;
     stop_words :=
       map lit
         ["i"; "me"; "my"; "myself"; "we"; "our"; "ours"; "ourselves"; "you";
          "you're"; "you've"; "you'll"; "you'd"; "your"; "yours"; "yourself";
          "yourselves"; "he"; "him"; "his"; "himself"; "she"; "she's"; "her";
          "hers"; "herself"; "it"; "it's"; "its"; "itself"; "they"; "them";
          "their"; "theirs"; "themselves"; "what"; "which"; "who"; "whom"]%string
  |}.

(** Lines 82-86. *)
Definition preprocess_text (self : TextSummarizer) (text : str) : str :=
  let text := sub_ws text in
  let text := sub_noise text in
  strip text.

(** The guard of lines 91 and 130:
    [not text or len(text.split()) < 10]. *)
Definition too_short (text : str) : bool :=
  negb (truthy text) || (len (split text) <? 10)%Z.

(** Lines 98-99. *)
Definition content_words (self : TextSummarizer) (text : str) : list str :=
  let words := simple_word_tokenize text in
  filter (fun word =>
            negb (set_contains (stop_words self) word) && truthy (strip word))
         words.

(** Lines 101-103. *)
Definition count_words (words : list str) : dict Z :=
  fold_left
    (fun word_freq word =>
       dict_set word_freq word (dict_get_default word_freq word 0 + 1)%Z)
    words [].

Definition word_freq_of (self : TextSummarizer) (text : str) : dict Z :=
  count_words (content_words self text).

(** Lines 107-111: the score of one sentence. *)
Definition sentence_score (word_freq : dict Z) (sentence : str) : result Z :=
  let sentence_words := simple_word_tokenize sentence in
  for_each
    (fun score word =>
       if dict_contains word_freq word
       then v <- dict_getitem word_freq word ;; Ok (score + v)%Z
       else Ok score)
    sentence_words 0%Z.

(** Lines 105-113. *)
Definition score_sentences (word_freq : dict Z) (sentences : list str)
  : result (dict Z) :=
  for_each
    (fun sentence_scores sentence =>
       score <- sentence_score word_freq sentence ;;
       if truthy (strip sentence)
       then Ok (dict_set sentence_scores sentence score)
       else Ok sentence_scores)
    sentences [].

Definition sentence_scores_of (self : TextSummarizer) (text : str)
  : result (dict Z) :=
  score_sentences (word_freq_of self text) (simple_sentence_tokenize text).

(** Lines 115-117. *)
Definition summary_sentences (self : TextSummarizer) (text : str) (n : Z)
  : result (list (str * Z)) :=
  sentence_scores <- sentence_scores_of self text ;;
  Ok (slice_to (sorted snd true (items sentence_scores)) n).

(** Lines 119-121. *)
Definition ordered_summary (self : TextSummarizer) (text : str) (n : Z)
  : result (list str) :=
  let sentences := simple_sentence_tokenize text in
  chosen <- summary_sentences self text n ;;
  ranked <- sorted_by (fun x => index sentences (fst x)) chosen ;;
  Ok (map fst ranked).

(** Lines 91-123: the body of the [try] block. *)
Definition extractive_try (self : TextSummarizer) (text : str) (n : Z)
  : result str :=
  if too_short text then Ok TOO_SHORT
  else
    let sentences := simple_sentence_tokenize text in
    if (len sentences <=? n)%Z then Ok text
    else
      ordered <- ordered_summary self text n ;;
      Ok (join (lit " ") ordered).

(** Lines 88-125. *)
Definition extractive_summarize (self : TextSummarizer) (text : str) (n : Z)
  : str :=
  match extractive_try self text n with
  | Ok summary => summary
  | Raise e => lit "Error in extractive summarization: " ++ exn_str e
  end.

(** Lines 133-138: the f-string, line breaks and indentation included. *)
Definition prompt_of (text : str) : str :=
  let indent := lit "            " in
  lit "Please provide a concise summary of the following text. "
  ++ [NEWLINE] ++ indent
  ++ lit "Focus on the main points and key insights while maintaining clarity and coherence:"
  ++ [NEWLINE] ++ indent
  ++ [NEWLINE] ++ indent ++ text
  ++ [NEWLINE] ++ indent
  ++ [NEWLINE] ++ indent ++ lit "Summary:".

(** Lines 127-153. *)
Definition abstractive_summarize (self : TextSummarizer) (text : str) : str :=
  let attempt :=
    if too_short text then Ok TOO_SHORT
    else groq_client self (prompt_of text) in
  match attempt with
  | Ok summary => summary
  | Raise e => lit "Error in abstractive summarization: " ++ exn_str e
  end.

End Summarizer.

(* ================================================================== *)
(** ** Vocabulary of the statements *)

Definition str_eq_dec : forall a b : str, {a = b} + {a <> b} :=
  list_eq_dec N.eq_dec.

Definition nonspace (c : char) : bool := negb (isspace c).

Definition nonterminator (c : char) : bool := negb (is_terminator c).

Definition starts_with_space (s : str) : bool :=
  match s with
  | [] => false
  | c :: _ => isspace c
  end.

Definition ends_with_space (s : str) : bool := starts_with_space (rev s).

(** Two neighbouring characters that are both the plain space. *)
Fixpoint double_space (s : str) : bool :=
  match s with
  | [] => false
  | c :: rest =>
      match rest with
      | [] => false
      | d :: _ => (N.eqb c SPACE && N.eqb d SPACE) || double_space rest
      end
  end.

(** Number of occurrences of a word in a token stream. *)
Fixpoint occurrences (w : str) (l : list str) : Z :=
  match l with
  | [] => 0
  | x :: rest => ((if str_eqb x w then 1 else 0) + occurrences w rest)%Z
  end.

Fixpoint zsum (l : list Z) : Z :=
  match l with
  | [] => 0
  | x :: rest => (x + zsum rest)%Z
  end.

(** The sum, over the word tokens of a sentence, of the value the frequency
    table gives the token, an absent token counting for nothing. *)
Definition token_frequency_sum {R : Runtime}
    (word_freq : dict Z) (sentence : str) : Z :=
  zsum (map (fun w => dict_get_default word_freq w 0%Z)
            (simple_word_tokenize sentence)).

(* ================================================================== *)
(** ** A runtime restricted to ASCII, for concrete runs *)

Definition ascii_isalnum (c : char) : bool :=
  ((48 <=? c) && (c <=? 57) || (65 <=? c) && (c <=? 90)
   || (97 <=? c) && (c <=? 122))%N.

Definition ascii_lower (s : str) : str :=
  map (fun c => if ((65 <=? c) && (c <=? 90))%N then (c + 32)%N else c) s.

Definition ascii_exn_str (e : exn) : str :=
  match e with
  | ValueError x => lit "'" ++ x ++ lit "' is not in list"
  | KeyError k => lit "'" ++ k ++ lit "'"
  | ServiceError what => what
  | UnboundLocalError name =>
      lit "cannot access local variable '" ++ name
      ++ lit "' where it is not associated with a value"
  end.

#[local] Instance ascii_runtime : Runtime := {|
  isalnum := ascii_isalnum;
  lower := ascii_lower;
  exn_str := ascii_exn_str;
  chat_completion := fun _ _ => Raise (ServiceError (lit "Connection error."))
|}.

Definition demo : TextSummarizer := __init__ (lit "key").

Definition cats : str :=
  lit "Cats are great. Cats sleep a lot. Cats are independent animals.".

(** A second summarizer object: another client, the same stop words listed
    in another order and with a repetition. *)
Definition demo_shuffled : TextSummarizer :=
  {| groq_client := fun prompt => Ok prompt;
     stop_words := lit "i" :: rev (stop_words demo) |}.

(** Ten words, each of them one of the contracted entries of the stop-word
    set, in three sentences. *)
Definition contractions : str :=
  lit "It's you're she's. You've you'll you'd. It's it's it's it's.".

(** Ten stop words without an apostrophe. *)
Definition plain_pronouns : str :=
  lit "They, them; who? You! I me my. We our ours.".

(* ================================================================== *)
(** ** The page: what pressing the button shows *)

(** Where an element is drawn: on the page itself or in one of the columns
    made by [st.columns(2)]. *)
Inductive place : Type :=
| Page
| Column (i : nat).

(** The elements the button handler draws: [st.error], [st.markdown] and
    [st.write]. *)
Inductive shown : Type :=
| StError (message : str)
| StMarkdown (spot : place) (body : str)
| StWrite (spot : place) (value : str).

(** The four calls that surround and show one summary (lines 233-241,
    244-249, 254-262 and 265-270). *)
Definition summary_box (spot : place) (title summary : str) : list shown :=
  [StMarkdown spot title;
   StMarkdown spot (lit "<div class='summary-box'>");
   StWrite spot summary;
   StMarkdown spot (lit "</div>")].

Definition EXTRACTIVE_TITLE : str := lit "### " ++ [128203%N] ++ lit " Extractive Summary".
Definition ABSTRACTIVE_TITLE : str := lit "### " ++ [129302%N] ++ lit " Abstractive Summary".

(** Lines 178-185 of [main]: the sidebar binds [num_sentences] to the value
    of the slider only when the mode is "Extractive" or "Both". *)
Definition sidebar_num_sentences (summary_type : str) (slider : Z)
  : option Z :=
  if set_contains [lit "Extractive"; lit "Both"] summary_type
  then Some slider else None.

(** Reading the local name [num_sentences]. *)
Definition read_num_sentences (num_sentences : option Z) : result Z :=
  match num_sentences with
  | Some n => Ok n
  | None => Raise (UnboundLocalError (lit "num_sentences"))
  end.

(** One summary box: the title and the opening tag are drawn, then the
    summary is computed, written and the tag closed.  If computing it
    raises, what was drawn before stays and the exception goes on. *)
Definition draw_box (spot : place) (title : str) (summary : result str)
  : list shown * option exn :=
  match summary with
  | Ok text => (summary_box spot title text, None)
  | Raise e =>
      ([StMarkdown spot title;
        StMarkdown spot (lit "<div class='summary-box'>")],
       Some e)
  end.

Section App.
Context {R : Runtime}.

(** Lines 227-270: the body of the [try] block of [main]: the elements it
    draws and the exception that ends it, if any. *)
Definition generate_try (groq_api_key text_input summary_type : str)
    (num_sentences : option Z) : list shown * option exn :=
  let summarizer := __init__ groq_api_key in
  let preprocessed_text := preprocess_text summarizer text_input in
  let extractive :=
    n <- read_num_sentences num_sentences ;;
    Ok (extractive_summarize summarizer preprocessed_text n) in
  let abstractive := Ok (abstractive_summarize summarizer preprocessed_text) in
  if str_eqb summary_type (lit "Extractive") then
    draw_box Page EXTRACTIVE_TITLE extractive
  else if str_eqb summary_type (lit "Abstractive") then
    draw_box Page ABSTRACTIVE_TITLE abstractive
  else
    match draw_box (Column 1) EXTRACTIVE_TITLE extractive with
    | (left_column, Some e) => (left_column, Some e)
    | (left_column, None) =>
        match draw_box (Column 2) ABSTRACTIVE_TITLE abstractive with
        | (right_column, failure) => (left_column ++ right_column, failure)
        end
    end.

(** Lines 218-273: the block under [if generate_button:], with the key that
    [main] holds, the text area, the mode and [num_sentences] as the sidebar
    left it. *)
Definition generate (groq_api_key text_input summary_type : str)
    (num_sentences : option Z) : list shown :=
  if negb (truthy groq_api_key) then
    [StError ([128273%N] ++ lit " Please enter your Groq API key in the sidebar.")]
  else if negb (truthy text_input) then
    [StError ([128221%N] ++ lit " Please enter some text to summarize.")]
  else
    match generate_try groq_api_key text_input summary_type num_sentences with
    | (drawn, None) => drawn
    | (drawn, Some e) =>
        drawn ++ [StError ([10060%N] ++ lit " An error occurred: " ++ exn_str e)]
    end.

End App.

(** The summaries among the elements drawn. *)
Definition written (elements : list shown) : list str :=
  flat_map (fun element =>
              match element with
              | StWrite _ value => [value]
              | _ => []
              end)
           elements.

(* ================================================================== *)
(** ** The steps in the words of the specification *)

(** [whitespace_collapsed text u]: [u] is [text] with every whitespace run
    replaced by a single space.  A run is taken whole: what follows it does
    not start with whitespace. *)
Inductive whitespace_collapsed : str -> str -> Prop :=
| collapsed_end : whitespace_collapsed [] []
| collapsed_char (c : char) (t u : str) :
    isspace c = false ->
    whitespace_collapsed t u ->
    whitespace_collapsed (c :: t) (c :: u)
| collapsed_run (run t u : str) :
    run <> [] ->
    forallb isspace run = true ->
    starts_with_space t = false ->
    whitespace_collapsed t u ->
    whitespace_collapsed (run ++ t) (SPACE :: u).

Definition starts_with_terminator (s : str) : bool :=
  match s with
  | [] => false
  | c :: _ => is_terminator c
  end.

(** [cut_at_terminators text fragments]: [text] is the fragments, in order,
    with a run of one or more of '.', '!', '?' between each two neighbours;
    no fragment holds a terminator, and every run is taken whole. *)
Inductive cut_at_terminators : str -> list str -> Prop :=
| cut_end (f : str) :
    forallb nonterminator f = true ->
    cut_at_terminators f [f]
| cut_run (f run rest : str) (fragments : list str) :
    forallb nonterminator f = true ->
    run <> [] ->
    forallb is_terminator run = true ->
    starts_with_terminator rest = false ->
    cut_at_terminators rest fragments ->
    cut_at_terminators (f ++ run ++ rest) (f :: fragments).

(** [trimmed f s]: [s] is [f] without its leading and trailing
    whitespace. *)
Definition trimmed (f s : str) : Prop :=
  exists before_ after_,
    f = before_ ++ s ++ after_
    /\ forallb isspace before_ = true /\ forallb isspace after_ = true
    /\ starts_with_space s = false /\ ends_with_space s = false.

(** A fragment that is neither empty nor whitespace only. *)
Definition has_nonspace (s : str) : bool := existsb nonspace s.

(* ================================================================== *)
(** ** More vocabulary *)

(** The distinct elements of a list, each at its first occurrence. *)
Definition first_occurrences (l : list str) : list str :=
  fold_left (fun seen s => if set_contains seen s then seen else seen ++ [s])
            l [].

(** Whitespace, if any, is the plain space. *)
Definition plain_spaced (s : str) : bool :=
  forallb (fun c => nonspace c || N.eqb c SPACE) s.

(** A sentence as the tokenizer returns them. *)
Definition clean_sentence (s : str) : bool :=
  truthy s && negb (starts_with_space s) && negb (ends_with_space s)
  && forallb nonterminator s && plain_spaced s && negb (double_space s).

(** A text that [preprocess_text] has nothing to do on. *)
Definition clean_text {R : Runtime} (t : str) : bool :=
  forallb keeps t && plain_spaced t && negb (double_space t)
  && negb (starts_with_space t) && negb (ends_with_space t).

(** Number of places where a word begins: a non-whitespace character at the
    start or right after whitespace.  [after_space] tells what precedes. *)
Fixpoint word_starts (after_space : bool) (s : str) : nat :=
  match s with
  | [] => 0
  | c :: rest =>
      (if nonspace c && after_space then 1 else 0)
      + word_starts (isspace c) rest
  end.

(* ================================================================== *)
(** ** Facts about strings *)

Lemma str_eqb_eq (a b : str) : str_eqb a b = true <-> a = b.
Proof.
  revert b; induction a as [|x a IH]; intros [|y b]; simpl;
    try (split; [discriminate | discriminate]); try tauto.
  rewrite andb_true_iff, N.eqb_eq, IH.
  split; [intros [-> ->]; reflexivity | intros H; inversion H; auto].
Qed.

Lemma str_eqb_refl (a : str) : str_eqb a a = true.
Proof. apply str_eqb_eq; reflexivity. Qed.

Lemma str_eqb_neq (a b : str) : str_eqb a b = false <-> a <> b.
Proof.
  rewrite <- str_eqb_eq. destruct (str_eqb a b); split; congruence.
Qed.

Lemma space_is_space : isspace SPACE = true.
Proof. reflexivity. Qed.

Lemma nonspace_not_SPACE (c : char) : isspace c = false -> c <> SPACE.
Proof. intros H ->. discriminate. Qed.

Lemma terminator_nonspace (c : char) : is_terminator c = true -> isspace c = false.
Proof.
  unfold is_terminator. rewrite !orb_true_iff, !N.eqb_eq.
  intros [[-> | ->] | ->]; reflexivity.
Qed.

Lemma truthy_false (s : str) : truthy s = false <-> s = [].
Proof. destruct s; simpl; split; congruence. Qed.

Lemma truthy_true (s : str) : truthy s = true <-> s <> [].
Proof. destruct s; simpl; split; congruence. Qed.

(** *** Stripping *)

Lemma lstrip_decomp (s : str) :
  exists p, s = p ++ lstrip s /\ forallb isspace p = true.
Proof.
  induction s as [|c s [p [E F]]]; simpl.
  - exists []; auto.
  - destruct (isspace c) eqn:Hc.
    + exists (c :: p); simpl. rewrite Hc, F. split; [f_equal; exact E | reflexivity].
    + exists []; auto.
Qed.

Lemma lstrip_starts (s : str) : starts_with_space (lstrip s) = false.
Proof.
  induction s as [|c s IH]; simpl; auto.
  destruct (isspace c) eqn:Hc; auto.
Qed.

Lemma lstrip_id (s : str) : starts_with_space s = false -> lstrip s = s.
Proof. destruct s as [|c s]; simpl; auto. intros ->; reflexivity. Qed.

Lemma rstrip_decomp (s : str) :
  exists q, s = rstrip s ++ q /\ forallb isspace q = true.
Proof.
  unfold rstrip. destruct (lstrip_decomp (rev s)) as [p [E F]].
  exists (rev p); split.
  - rewrite <- rev_app_distr, <- E, rev_involutive; reflexivity.
  - rewrite forallb_forall in *. intros c Hc. apply F, in_rev, Hc.
Qed.

Lemma rstrip_ends (s : str) : ends_with_space (rstrip s) = false.
Proof.
  unfold ends_with_space, rstrip. rewrite rev_involutive. apply lstrip_starts.
Qed.

Lemma strip_decomp (s : str) :
  exists p q, s = p ++ strip s ++ q
              /\ forallb isspace p = true /\ forallb isspace q = true.
Proof.
  unfold strip. destruct (lstrip_decomp s) as [p [E F]].
  destruct (rstrip_decomp (lstrip s)) as [q [E' F']].
  exists p, q; repeat split; auto. rewrite <- E'; exact E.
Qed.

Lemma strip_starts (s : str) : starts_with_space (strip s) = false.
Proof.
  unfold strip. destruct (rstrip_decomp (lstrip s)) as [q [E _]].
  pose proof (lstrip_starts s) as H. rewrite E in H.
  destruct (rstrip (lstrip s)); simpl in *; auto.
Qed.

Lemma strip_ends (s : str) : ends_with_space (strip s) = false.
Proof. apply rstrip_ends. Qed.

Lemma strip_nil : strip [] = [].
Proof. reflexivity. Qed.

Lemma filter_all_space (p : str) :
  forallb isspace p = true -> filter nonspace p = [].
Proof.
  induction p as [|c p IH]; simpl; auto.
  rewrite andb_true_iff; intros [Hc Hp]. unfold nonspace at 1.
  rewrite Hc; simpl; auto.
Qed.

Lemma filter_nonspace_strip (s : str) :
  filter nonspace (strip s) = filter nonspace s.
Proof.
  destruct (strip_decomp s) as [p [q [E [Fp Fq]]]].
  rewrite E at 2. rewrite !filter_app, (filter_all_space p Fp), (filter_all_space q Fq).
  simpl. rewrite app_nil_r. reflexivity.
Qed.

Lemma strip_blank_nonspace (s : str) :
  truthy (strip s) = false -> filter nonspace s = [].
Proof.
  rewrite truthy_false; intros H. rewrite <- filter_nonspace_strip, H. reflexivity.
Qed.

Lemma double_space_app (a b : str) :
  double_space (a ++ b) = false ->
  double_space a = false /\ double_space b = false.
Proof.
  induction a as [|c a IH]; simpl; auto.
  destruct a as [|d a]; simpl in *.
  - destruct b as [|e b]; auto. rewrite orb_false_iff. tauto.
  - rewrite !orb_false_iff. intros [H1 H2]. destruct (IH H2). auto.
Qed.

Lemma double_space_strip (s : str) :
  double_space s = false -> double_space (strip s) = false.
Proof.
  destruct (strip_decomp s) as [p [q [E _]]]. intros H. rewrite E in H.
  apply double_space_app in H as [_ H]. apply double_space_app in H as [H _].
  exact H.
Qed.

(** *** Filters *)

Lemma filter_id {A} (f : A -> bool) (l : list A) :
  (forall x, In x l -> f x = true) -> filter f l = l.
Proof.
  induction l as [|x l IH]; simpl; intros H; auto.
  rewrite (H x (or_introl eq_refl)). f_equal. apply IH; auto.
Qed.

Lemma filter_twice {A} (f g : A -> bool) (l : list A) :
  filter f (filter g l) = filter (fun x => g x && f x) l.
Proof.
  induction l as [|x l IH]; simpl; auto.
  destruct (g x); simpl; [destruct (f x) |]; rewrite IH; reflexivity.
Qed.

Lemma filter_swap {A} (f g : A -> bool) (l : list A) :
  filter f (filter g l) = filter g (filter f l).
Proof.
  rewrite !filter_twice. apply filter_ext. intros x. apply andb_comm.
Qed.

Lemma forallb_infix {A} (f : A -> bool) (p m q : list A) :
  forallb f (p ++ m ++ q) = true -> forallb f m = true.
Proof.
  rewrite !forallb_app, !andb_true_iff. tauto.
Qed.

(** *** Collapsing whitespace *)

Lemma sub_ws_from_nonspace (b : bool) (t : str) :
  filter nonspace (sub_ws_from b t) = filter nonspace t.
Proof.
  revert b; induction t as [|c t IH]; intros b; simpl; auto.
  unfold nonspace at 2. destruct (isspace c) eqn:Hc; simpl.
  - destruct b; simpl; apply IH.
  - unfold nonspace at 1. rewrite Hc; simpl. f_equal. apply IH.
Qed.

Lemma sub_ws_from_chars (b : bool) (t : str) (c : char) :
  In c (sub_ws_from b t) -> c = SPACE \/ (In c t /\ isspace c = false).
Proof.
  revert b; induction t as [|x t IH]; intros b; simpl; [tauto|].
  destruct (isspace x) eqn:Hx.
  - destruct b; simpl.
    + intros H. destruct (IH _ H) as [|[? ?]]; auto.
    + intros [H|H]; auto. destruct (IH _ H) as [|[? ?]]; auto.
  - simpl. intros [H|H].
    + subst; auto.
    + destruct (IH _ H) as [|[? ?]]; auto.
Qed.

Lemma double_space_cons2 (c d : char) (u : str) :
  double_space (c :: d :: u)
  = (N.eqb c SPACE && N.eqb d SPACE) || double_space (d :: u).
Proof. reflexivity. Qed.

Lemma double_space_after (c : char) (s : str) :
  (N.eqb c SPACE = false \/ starts_with_space s = false) ->
  double_space s = false -> double_space (c :: s) = false.
Proof.
  destruct s as [|d u]; [reflexivity|]. intros H Hd.
  rewrite double_space_cons2, Hd, orb_false_r. apply andb_false_iff.
  destruct H as [H|H]; [left; exact H | right].
  apply N.eqb_neq, nonspace_not_SPACE, H.
Qed.

Lemma sub_ws_from_runs (b : bool) (t : str) :
  (b = true -> starts_with_space (sub_ws_from b t) = false)
  /\ double_space (sub_ws_from b t) = false.
Proof.
  revert b; induction t as [|c t IH]; intros b; [simpl; auto|].
  cbn [sub_ws_from]. destruct (isspace c) eqn:Hc.
  - destruct (IH true) as [Hs Hd]. specialize (Hs eq_refl).
    destruct b; [auto|]. split; [discriminate|].
    apply double_space_after; auto.
  - destruct (IH false) as [_ Hd]. split; [intros _; exact Hc|].
    apply double_space_after; auto. left.
    apply N.eqb_neq, nonspace_not_SPACE, Hc.
Qed.

Lemma sub_ws_from_snoc (b : bool) (t : str) (c : char) :
  isspace c = false -> sub_ws_from b (t ++ [c]) = sub_ws_from b t ++ [c].
Proof.
  intros Hc. revert b; induction t as [|x t IH]; intros b; simpl.
  - rewrite Hc; reflexivity.
  - destruct (isspace x); [destruct b|]; simpl; rewrite IH; reflexivity.
Qed.

(** *** Splitting at terminators *)

Lemma re_split_from_nonempty (b : bool) (t : str) : re_split_from b t <> [].
Proof.
  revert b; induction t as [|c t IH]; intros b; simpl; [discriminate|].
  destruct (is_terminator c).
  - destruct b; [apply IH | discriminate].
  - destruct (re_split_from false t); discriminate.
Qed.

Lemma re_split_from_concat (b : bool) (t : str) :
  concat (re_split_from b t) = filter nonterminator t.
Proof.
  revert b; induction t as [|c t IH]; intros b; simpl; auto.
  unfold nonterminator at 1. destruct (is_terminator c); simpl.
  - destruct b; simpl; apply IH.
  - specialize (IH false). destruct (re_split_from false t) as [|f fs]; simpl in *;
      rewrite <- IH; reflexivity.
Qed.

Lemma re_split_from_fragments (b : bool) (t : str) :
  Forall (fun f => forallb nonterminator f = true) (re_split_from b t).
Proof.
  revert b; induction t as [|c t IH]; intros b; simpl.
  - repeat constructor.
  - destruct (is_terminator c) eqn:Hc.
    + destruct b; [apply IH | constructor; [reflexivity | apply IH]].
    + specialize (IH false). destruct (re_split_from false t) as [|f fs].
      * repeat constructor. simpl. unfold nonterminator. rewrite Hc. reflexivity.
      * inversion IH; subst. constructor; auto. simpl.
        unfold nonterminator at 1. rewrite Hc. simpl. assumption.
Qed.

Lemma re_split_from_snoc (b : bool) (t : str) (c : char) :
  is_terminator c = true ->
  re_split_from b (t ++ [c]) = re_split_from b t ++ [[]]
  \/ re_split_from b (t ++ [c]) = re_split_from b t.
Proof.
  intros Hc. revert b; induction t as [|x t IH]; intros b; simpl.
  - rewrite Hc. destruct b; auto.
  - destruct (is_terminator x).
    + destruct b; [apply IH|]. destruct (IH true) as [E|E]; rewrite E; auto.
    + pose proof (re_split_from_nonempty false t) as Hne.
      destruct (IH false) as [E|E]; rewrite E;
        destruct (re_split_from false t) as [|f fs]; try congruence; auto.
Qed.

Lemma re_split_head_prefix (t g : str) (gs : list str) :
  re_split_from false t = g :: gs -> exists q, t = g ++ q.
Proof.
  revert g gs; induction t as [|c t IH]; intros g gs; simpl.
  - intros H; inversion H; subst. exists []; reflexivity.
  - destruct (is_terminator c).
    + intros H; inversion H; subst. exists (c :: t); reflexivity.
    + destruct (re_split_from false t) as [|f fs] eqn:E.
      * intros H; inversion H; subst.
        exfalso. exact (re_split_from_nonempty false t E).
      * intros H; injection H as <- <-.
        destruct (IH f fs eq_refl) as [q ->]. exists q; reflexivity.
Qed.

Lemma re_split_from_infix (b : bool) (t f : str) :
  In f (re_split_from b t) -> exists p q, t = p ++ f ++ q.
Proof.
  revert b; induction t as [|c t IH]; intros b; simpl.
  - intros [<- | []]. exists [], []; reflexivity.
  - destruct (is_terminator c).
    + assert (Hrest : In f (re_split_from true t) ->
                      exists p q, c :: t = p ++ f ++ q).
      { intros H. destruct (IH true H) as [p [q ->]].
        exists (c :: p), q; reflexivity. }
      destruct b; [exact Hrest|]. intros [<- | H]; [|exact (Hrest H)].
      exists [], (c :: t); reflexivity.
    + destruct (re_split_from false t) as [|g gs] eqn:E.
      * exfalso. exact (re_split_from_nonempty false t E).
      * intros [<- | H].
        -- destruct (re_split_head_prefix t g gs E) as [q ->].
           exists [], q; reflexivity.
        -- destruct (IH false) as [p [q ->]]; [rewrite E; right; exact H|].
           exists (c :: p), q; reflexivity.
Qed.

Lemma re_split_plain (t : str) :
  forallb nonterminator t = true -> re_split_from false t = [t].
Proof.
  induction t as [|c t IH]; [reflexivity|]. cbn [forallb re_split_from].
  rewrite andb_true_iff. intros [Hc Ht]. unfold nonterminator in Hc.
  apply negb_true_iff in Hc. rewrite Hc, (IH Ht). reflexivity.
Qed.

Lemma re_split_fragment (f rest : str) (c : char) :
  forallb nonterminator f = true -> is_terminator c = true ->
  re_split_from false (f ++ c :: rest) = f :: re_split_from true rest.
Proof.
  intros Hf Hc. induction f as [|x f IH]; cbn [app re_split_from].
  - rewrite Hc. reflexivity.
  - cbn [forallb] in Hf. apply andb_true_iff in Hf as [Hx Hf].
    unfold nonterminator in Hx. apply negb_true_iff in Hx.
    rewrite Hx, (IH Hf). reflexivity.
Qed.

Lemma re_split_after_run (run rest : str) :
  forallb is_terminator run = true ->
  starts_with_terminator rest = false ->
  re_split_from true (run ++ rest) = re_split_from false rest.
Proof.
  intros Hrun Hrest. induction run as [|c run IH]; cbn [app].
  - destruct rest as [|d rest]; [reflexivity|].
    cbn [starts_with_terminator] in Hrest. cbn [re_split_from].
    rewrite Hrest. reflexivity.
  - cbn [forallb] in Hrun. apply andb_true_iff in Hrun as [Hc Hrun].
    cbn [re_split_from]. rewrite Hc. apply IH, Hrun.
Qed.

Lemma span_prefix (p : char -> bool) (t : str) :
  exists a b,
    t = a ++ b /\ forallb p a = true
    /\ match b with [] => True | c :: _ => p c = false end.
Proof.
  induction t as [|c t [a [b [E [Ha Hb]]]]]; [exists [], []; auto|].
  destruct (p c) eqn:Hc.
  - exists (c :: a), b. cbn [app forallb]. rewrite Hc, Ha, <- E. auto.
  - exists [], (c :: t). auto.
Qed.

(** The relation says what [re.split] computes, and nothing else. *)
Lemma cut_at_terminators_unique (t : str) (fragments : list str) :
  cut_at_terminators t fragments -> fragments = re_split t.
Proof.
  unfold re_split. induction 1 as [f Hf | f run rest frags Hf Hne Hrun Hrest _ IH].
  - symmetry. apply re_split_plain, Hf.
  - destruct run as [|c run]; [congruence|].
    cbn [forallb] in Hrun. apply andb_true_iff in Hrun as [Hc Hrun].
    cbn [app]. rewrite (re_split_fragment f (run ++ rest) c Hf Hc).
    rewrite (re_split_after_run run rest Hrun Hrest), <- IH. reflexivity.
Qed.

Lemma cut_at_terminators_exists (n : nat) (t : str) :
  length t <= n -> exists fragments, cut_at_terminators t fragments.
Proof.
  revert t; induction n as [|n IH]; intros t Hlen.
  - destruct t; [|cbn in Hlen; lia]. exists [[]]. constructor. reflexivity.
  - destruct (span_prefix nonterminator t) as [f [b [E [Hf Hb]]]].
    destruct b as [|c b].
    + rewrite app_nil_r in E. subst t. exists [f]. constructor. exact Hf.
    + destruct (span_prefix is_terminator (c :: b))
        as [run [rest [E' [Hrun Hrest]]]].
      assert (Hne : run <> []).
      { intros ->. cbn [app] in E'. subst rest.
        unfold nonterminator in Hb. rewrite Hrest in Hb. discriminate Hb. }
      assert (Hlen' : length rest <= n).
      { subst t. rewrite E', !length_app in Hlen.
        destruct run; [congruence | cbn [length] in Hlen; lia]. }
      destruct (IH rest Hlen') as [frags Hfrags].
      exists (f :: frags). rewrite E, E'. constructor; auto.
      destruct rest; [reflexivity | exact Hrest].
Qed.

Lemma re_split_cut (t : str) : cut_at_terminators t (re_split t).
Proof.
  destruct (cut_at_terminators_exists (length t) t (le_n _)) as [frags H].
  rewrite <- (cut_at_terminators_unique t frags H). exact H.
Qed.

(** *** Collapsing, in the specification's words *)

Lemma sub_ws_from_after_run (t : str) :
  starts_with_space t = false -> sub_ws_from true t = sub_ws_from false t.
Proof.
  destruct t as [|c t]; [reflexivity|].
  cbn [starts_with_space sub_ws_from]. intros ->. reflexivity.
Qed.

Lemma sub_ws_from_run (b : bool) (run t : str) :
  run <> [] -> forallb isspace run = true ->
  sub_ws_from b (run ++ t)
  = (if b then [] else [SPACE]) ++ sub_ws_from true t.
Proof.
  revert b; induction run as [|c run IH]; intros b Hne Hall; [congruence|].
  cbn [forallb] in Hall. apply andb_true_iff in Hall as [Hc Hall].
  cbn [app sub_ws_from]. rewrite Hc.
  destruct run as [|d run'].
  - destruct b; reflexivity.
  - assert (E : sub_ws_from true ((d :: run') ++ t) = sub_ws_from true t).
    { apply (IH true); [discriminate | exact Hall]. }
    rewrite E. destruct b; reflexivity.
Qed.

(** The relation says what [re.sub(r'\s+', ' ', text)] computes, and nothing
    else. *)
Lemma whitespace_collapsed_unique (t u : str) :
  whitespace_collapsed t u -> u = sub_ws t.
Proof.
  unfold sub_ws. induction 1 as [|c t u Hc _ IH | run t u Hne Hrun Ht _ IH].
  - reflexivity.
  - cbn [sub_ws_from]. rewrite Hc, IH. reflexivity.
  - rewrite (sub_ws_from_run false run t Hne Hrun).
    rewrite (sub_ws_from_after_run t Ht), IH. reflexivity.
Qed.

Lemma lstrip_shorter (s : str) : length (lstrip s) <= length s.
Proof.
  destruct (lstrip_decomp s) as [p [E _]]. rewrite E at 2.
  rewrite length_app. lia.
Qed.

Lemma whitespace_collapsed_exists (n : nat) (t : str) :
  length t <= n -> exists u, whitespace_collapsed t u.
Proof.
  revert t; induction n as [|n IH]; intros t Hlen.
  - destruct t; [|cbn in Hlen; lia]. exists []. constructor.
  - destruct t as [|c t]; [exists []; constructor|].
    cbn [length] in Hlen. destruct (isspace c) eqn:Hc.
    + destruct (lstrip_decomp (c :: t)) as [p [E Hp]].
      assert (El : lstrip (c :: t) = lstrip t) by (cbn; rewrite Hc; reflexivity).
      rewrite El in E. pose proof (lstrip_shorter t) as Hshort.
      assert (Hne : p <> []).
      { intros ->. cbn [app] in E.
        apply (f_equal (@length char)) in E. cbn [length] in E. lia. }
      destruct (IH (lstrip t)) as [u Hu]; [lia|].
      exists (SPACE :: u). rewrite E. constructor; auto.
      apply lstrip_starts.
    + destruct (IH t) as [u Hu]; [lia|].
      exists (c :: u). constructor; assumption.
Qed.

Lemma sub_ws_collapsed (t : str) : whitespace_collapsed t (sub_ws t).
Proof.
  destruct (whitespace_collapsed_exists (length t) t (le_n _)) as [u H].
  rewrite <- (whitespace_collapsed_unique t u H). exact H.
Qed.

(** *** Trimming, in the specification's words *)

Lemma strip_trimmed (f : str) : trimmed f (strip f).
Proof.
  destruct (strip_decomp f) as [p [q [E [Hp Hq]]]]. exists p, q.
  repeat split; auto; [apply strip_starts | apply strip_ends].
Qed.

Lemma truthy_strip (f : str) : truthy (strip f) = has_nonspace f.
Proof.
  unfold has_nonspace. destruct (strip_decomp f) as [p [q [E _]]].
  destruct (strip f) as [|c r] eqn:Es; cbn [truthy]; symmetry.
  - destruct (existsb nonspace f) eqn:Ex; [|reflexivity].
    apply existsb_exists in Ex as [x [Hx Hn]].
    assert (Hin : In x (filter nonspace f)) by (apply filter_In; auto).
    rewrite <- filter_nonspace_strip, Es in Hin. destruct Hin.
  - apply existsb_exists. exists c. split.
    + rewrite E. apply in_or_app; right. left; reflexivity.
    + pose proof (strip_starts f) as Hs. rewrite Es in Hs.
      cbn [starts_with_space] in Hs. unfold nonspace. rewrite Hs. reflexivity.
Qed.

Lemma tokenize_trimmed (fragments : list str) :
  Forall2 trimmed (filter has_nonspace fragments)
          (map strip (filter (fun s => truthy (strip s)) fragments)).
Proof.
  induction fragments as [|f fs IH]; [constructor|]. cbn [filter].
  rewrite truthy_strip. destruct (has_nonspace f); [|exact IH].
  cbn [map]. constructor; [apply strip_trimmed | exact IH].
Qed.

Lemma tokenize_fragments_nonspace (frags : list str) :
  filter nonspace
    (concat (map strip (filter (fun s => truthy (strip s)) frags)))
  = filter nonspace (concat frags).
Proof.
  induction frags as [|f fs IH]; simpl; auto.
  rewrite filter_app. destruct (truthy (strip f)) eqn:Hf; simpl.
  - rewrite filter_app, filter_nonspace_strip, IH. reflexivity.
  - rewrite (strip_blank_nonspace f Hf), IH. reflexivity.
Qed.

Lemma tokenize_snoc (text : str) (c : char) :
  is_terminator c = true ->
  simple_sentence_tokenize (text ++ [c]) = simple_sentence_tokenize text.
Proof.
  intros Hc. unfold simple_sentence_tokenize, sub_ws, re_split.
  rewrite (sub_ws_from_snoc _ _ _ (terminator_nonspace c Hc)).
  destruct (re_split_from_snoc false (sub_ws_from false text) c Hc) as [E|E];
    rewrite E; auto.
  rewrite filter_app. simpl. rewrite app_nil_r. reflexivity.
Qed.

(* ================================================================== *)
(** ** The short-text guard *)

Lemma too_short_few_words {R : Runtime} (text : str) :
  (len (split text) < 10)%Z -> too_short text = true.
Proof.
  intros H. unfold too_short. apply Z.ltb_lt in H. rewrite H.
  apply orb_true_r.
Qed.

Lemma too_short_enough_words {R : Runtime} (text : str) :
  (10 <= len (split text))%Z -> too_short text = false.
Proof.
  intros H. unfold too_short. apply orb_false_iff; split.
  - destruct text; [simpl in H; unfold len in H; simpl in H; lia | reflexivity].
  - apply Z.ltb_ge; exact H.
Qed.

(** C1: when [text] has fewer than ten whitespace-separated words (the empty
    string has none), [extractive_summarize] returns the literal
    "Text is too short to summarize." for every integer [n] and every
    summarizer object, and [abstractive_summarize] returns the same string
    without consulting the hosted model. *)
Theorem short_text_fallback {R : Runtime}
    (self : TextSummarizer) (text : str) (n : Z) :
  (len (split text) < 10)%Z ->
  extractive_summarize self text n = lit "Text is too short to summarize."
  /\ abstractive_summarize self text = lit "Text is too short to summarize."
  /\ extractive_summarize self [] n = lit "Text is too short to summarize."
  /\ abstractive_summarize self [] = lit "Text is too short to summarize.".
Proof.
  intros H. apply too_short_few_words in H.
  unfold extractive_summarize, extractive_try, abstractive_summarize.
  rewrite H. repeat split; reflexivity.
Qed.

Lemma short_text_fallback_witness :
  (len (split (lit "Too few words here.")) < 10)%Z
  /\ extractive_summarize demo (lit "Too few words here.") 3
     = lit "Text is too short to summarize."
  /\ abstractive_summarize demo (lit "Too few words here.")
     = lit "Text is too short to summarize."
  /\ extractive_summarize demo [] 3 = lit "Text is too short to summarize."
  /\ abstractive_summarize demo [] = lit "Text is too short to summarize.".
Proof.
  split; [reflexivity|].
  apply (@short_text_fallback ascii_runtime demo (lit "Too few words here.") 3).
  reflexivity.
Defined.

Lemma extractive_summarize_whole_text {R : Runtime}
    (self : TextSummarizer) (text : str) (n : Z) :
  (10 <= len (split text))%Z ->
  (len (simple_sentence_tokenize text) <= n)%Z ->
  extractive_summarize self text n = text.
Proof.
  intros Hw Hs. unfold extractive_summarize, extractive_try.
  rewrite (too_short_enough_words text Hw).
  apply Z.leb_le in Hs. rewrite Hs. reflexivity.
Qed.

(** C2, as the code has it: when [text] has at least ten words and its
    sentence count is at most [n], [extractive_summarize] returns [text]
    itself, character for character. *)
Theorem few_sentences_returns_text {R : Runtime}
    (self : TextSummarizer) (text : str) (n : Z) :
  (10 <= len (split text))%Z ->
  (len (simple_sentence_tokenize text) <= n)%Z ->
  extractive_summarize self text n = text.
Proof.
  intros Hwords Hcount.
  assert (Hguard : too_short text = false)
    by exact (too_short_enough_words text Hwords).
  assert (Hall : (len (simple_sentence_tokenize text) <=? n)%Z = true)
    by (apply Z.leb_le; exact Hcount).
  unfold extractive_summarize, extractive_try.
  rewrite Hguard, Hall. reflexivity.
Qed.

Lemma few_sentences_returns_text_witness :
  (10 <= len (split cats))%Z
  /\ (len (simple_sentence_tokenize cats) <= 5)%Z
  /\ extractive_summarize demo cats 5 = cats.
Proof.
  split; [discriminate|]. split; [discriminate|].
  apply (@few_sentences_returns_text ascii_runtime demo cats 5); discriminate.
Defined.

(** C2, as stated, fails: on the three-sentence text [cats] with [n = 3] the
    result keeps the periods, so it is not the space-joined sentence list. *)
Lemma few_sentences_not_rejoined :
  (10 <= len (split cats))%Z
  /\ (len (simple_sentence_tokenize cats) <= 3)%Z
  /\ extractive_summarize demo cats 3
     = lit "Cats are great. Cats sleep a lot. Cats are independent animals."
  /\ join (lit " ") (simple_sentence_tokenize cats)
     = lit "Cats are great Cats sleep a lot Cats are independent animals"
  /\ extractive_summarize demo cats 3
     <> join (lit " ") (simple_sentence_tokenize cats).
Proof.
  split; [discriminate|]. split; [discriminate|].
  split; [reflexivity|]. split; [reflexivity|].
  intros H. vm_compute in H. discriminate H.
Qed.

(* ================================================================== *)
(** ** The preprocessor *)

Lemma sub_noise_fixed {R : Runtime} (text : str) :
  forallb keeps text = true -> sub_noise (sub_ws text) = sub_ws text.
Proof.
  intros H. unfold sub_noise. apply filter_id. intros c Hc.
  apply sub_ws_from_chars in Hc as [-> | [Hc _]].
  - unfold keeps. rewrite space_is_space, orb_true_r. reflexivity.
  - rewrite forallb_forall in H. apply H, Hc.
Qed.

(** C3, as the code has it: [preprocess_text] first turns every whitespace
    run into one space, then deletes every character that is neither a word
    character, whitespace nor a period, then trims: the result, with
    whitespace only before and after it, is the collapsed text without the
    deleted characters.  So every character of the result is a plain space,
    a word character or a period; the non-whitespace characters of the
    result are the permitted non-whitespace characters of the input, in
    order; the result neither starts nor ends with whitespace; the empty
    input gives the empty output; and when the input has no character to
    delete, the result has no two consecutive spaces. *)
Theorem preprocess_text_shape {R : Runtime}
    (self : TextSummarizer) (text : str) :
  (exists collapsed_text before_ after_,
      whitespace_collapsed text collapsed_text
      /\ filter keeps collapsed_text
         = before_ ++ preprocess_text self text ++ after_
      /\ forallb isspace before_ = true
      /\ forallb isspace after_ = true)
  /\ Forall (fun c => c = SPACE
                      \/ (isspace c = false
                          /\ (is_word c = true \/ c = PERIOD)))
            (preprocess_text self text)
  /\ filter nonspace (preprocess_text self text)
     = filter (fun c => nonspace c && (is_word c || N.eqb c PERIOD)) text
  /\ starts_with_space (preprocess_text self text) = false
  /\ ends_with_space (preprocess_text self text) = false
  /\ preprocess_text self [] = []
  /\ (forallb keeps text = true ->
      double_space (preprocess_text self text) = false).
Proof.
  split.
  { destruct (strip_decomp (sub_noise (sub_ws text))) as [p [q [E [Hp Hq]]]].
    exists (sub_ws text), p, q. split; [apply sub_ws_collapsed|].
    split; [exact E | split; assumption]. }
  unfold preprocess_text. repeat split.
  - apply Forall_forall. intros c Hc.
    destruct (strip_decomp (sub_noise (sub_ws text))) as [p [q [E _]]].
    assert (Hin : In c (sub_noise (sub_ws text))).
    { rewrite E. apply in_or_app; right. apply in_or_app; left. exact Hc. }
    unfold sub_noise in Hin. apply filter_In in Hin as [Hin Hk].
    apply sub_ws_from_chars in Hin as [-> | [_ Hs]]; [left; reflexivity|].
    right. split; [exact Hs|]. unfold keeps in Hk. rewrite Hs in Hk.
    rewrite orb_false_r in Hk. apply orb_true_iff in Hk as [Hk|Hk]; auto.
    right. apply N.eqb_eq, Hk.
  - rewrite filter_nonspace_strip. unfold sub_noise, sub_ws.
    rewrite filter_swap, sub_ws_from_nonspace, filter_twice.
    apply filter_ext. intros c. unfold keeps, nonspace.
    destruct (isspace c); simpl; [reflexivity|].
    rewrite orb_false_r. reflexivity.
  - apply strip_starts.
  - apply strip_ends.
  - intros H. rewrite (sub_noise_fixed text H).
    apply double_space_strip. apply (sub_ws_from_runs false text).
Qed.

Lemma preprocess_text_shape_witness :
  forallb keeps (lit "  Hello   world.  It_is   fine. ") = true
  /\ double_space (preprocess_text demo (lit "  Hello   world.  It_is   fine. "))
     = false.
Proof.
  split; [reflexivity|].
  apply (proj2 (@preprocess_text_shape ascii_runtime demo
                  (lit "  Hello   world.  It_is   fine. "))).
  reflexivity.
Defined.

(** C3, as stated, fails: deleting the comma of "a , b" leaves the two
    spaces around it side by side. *)
Lemma preprocess_leaves_double_space :
  preprocess_text demo (lit "a , b") = lit "a  b"
  /\ double_space (preprocess_text demo (lit "a , b")) = true.
Proof. split; reflexivity. Qed.

(* ================================================================== *)
(** ** The sentence tokenizer *)

(** C8: [simple_sentence_tokenize] collapses whitespace, cuts the collapsed
    text at every run of one or more of '.', '!', '?', drops the fragments
    that are empty or whitespace only and trims the others, keeping their
    order.  So every sentence returned is non-empty, neither starts nor ends
    with whitespace, holds no terminator, and its only whitespace is the
    plain space, never twice in a row; the non-whitespace characters of the
    sentences, read in order, are the non-whitespace, non-terminator
    characters of the input in their order; and one more '.', '!' or '?' at
    the end of the text changes nothing. *)
Theorem sentence_tokenize_shape (text : str) :
  (exists collapsed_text fragments,
      whitespace_collapsed text collapsed_text
      /\ cut_at_terminators collapsed_text fragments
      /\ Forall2 trimmed (filter has_nonspace fragments)
                 (simple_sentence_tokenize text))
  /\ Forall (fun s => s <> []
                   /\ starts_with_space s = false
                   /\ ends_with_space s = false
                   /\ forallb nonterminator s = true
                   /\ double_space s = false
                   /\ forallb (fun c => nonspace c || N.eqb c SPACE) s = true)
         (simple_sentence_tokenize text)
  /\ filter nonspace (concat (simple_sentence_tokenize text))
     = filter nonspace (filter nonterminator text)
  /\ simple_sentence_tokenize (text ++ lit ".") = simple_sentence_tokenize text
  /\ simple_sentence_tokenize (text ++ lit "!") = simple_sentence_tokenize text
  /\ simple_sentence_tokenize (text ++ lit "?") = simple_sentence_tokenize text.
Proof.
  split.
  { exists (sub_ws text), (re_split (sub_ws text)).
    split; [apply sub_ws_collapsed|]. split; [apply re_split_cut|].
    unfold simple_sentence_tokenize. apply tokenize_trimmed. }
  split; [|split; [|repeat split; apply tokenize_snoc; reflexivity]].
  - apply Forall_forall. intros s Hs. unfold simple_sentence_tokenize in Hs.
    apply in_map_iff in Hs as [f [<- Hf]].
    apply filter_In in Hf as [Hf Ht].
    split; [apply truthy_true, Ht|].
    split; [apply strip_starts|]. split; [apply strip_ends|].
    pose proof (re_split_from_fragments false (sub_ws text)) as Hall.
    rewrite Forall_forall in Hall. specialize (Hall f Hf).
    destruct (strip_decomp f) as [p [q [E _]]].
    split; [rewrite E in Hall; apply forallb_infix in Hall; exact Hall|].
    destruct (re_split_from_infix false (sub_ws text) f Hf) as [p' [q' E']].
    split.
    + apply double_space_strip.
      pose proof (proj2 (sub_ws_from_runs false text)) as Hd.
      fold (sub_ws text) in Hd. rewrite E' in Hd.
      apply double_space_app in Hd as [_ Hd].
      apply double_space_app in Hd as [Hd _]. exact Hd.
    + apply forallb_forall. intros c Hc.
      assert (Hin : In c (sub_ws text)).
      { rewrite E', E. apply in_or_app; right. apply in_or_app; left.
        apply in_or_app; right. apply in_or_app; left. exact Hc. }
      apply sub_ws_from_chars in Hin as [-> | [_ Hn]]; [reflexivity|].
      unfold nonspace. rewrite Hn. reflexivity.
  - unfold simple_sentence_tokenize. rewrite tokenize_fragments_nonspace.
    unfold re_split. rewrite re_split_from_concat.
    unfold sub_ws. rewrite filter_swap, sub_ws_from_nonspace.
    apply filter_swap.
Qed.

(* ================================================================== *)
(** ** Dictionaries *)

Lemma dict_get_set {V} (d : dict V) (k : str) (v : V) (k' : str) :
  dict_get (dict_set d k v) k'
  = if str_eqb k k' then Some v else dict_get d k'.
Proof.
  induction d as [|[k0 v0] d IH]; simpl; [reflexivity|].
  destruct (str_eqb k0 k) eqn:E0; simpl.
  - apply str_eqb_eq in E0; subst k0.
    destruct (str_eqb k k'); reflexivity.
  - rewrite IH. destruct (str_eqb k0 k') eqn:E1; [|reflexivity].
    apply str_eqb_eq in E1; subst k0. apply str_eqb_neq in E0.
    assert (E : str_eqb k k' = false) by (apply str_eqb_neq; congruence).
    rewrite E. reflexivity.
Qed.

Lemma dict_get_keys {V} (d : dict V) (k : str) :
  In k (keys d) <-> exists v, dict_get d k = Some v.
Proof.
  induction d as [|[k0 v0] d IH]; simpl.
  - split; [tauto | intros [v H]; discriminate].
  - destruct (str_eqb k0 k) eqn:E.
    + apply str_eqb_eq in E. split; [intros _; eauto | auto].
    + apply str_eqb_neq in E. rewrite IH. split; [intros [?|?]; tauto | auto].
Qed.

Lemma dict_contains_keys {V} (d : dict V) (k : str) :
  dict_contains d k = true <-> In k (keys d).
Proof.
  rewrite dict_get_keys. unfold dict_contains.
  destruct (dict_get d k); split; eauto; try discriminate.
  intros [v H]; discriminate.
Qed.

Lemma keys_dict_set {V} (d : dict V) (k : str) (v : V) (k' : str) :
  In k' (keys (dict_set d k v)) <-> k' = k \/ In k' (keys d).
Proof.
  rewrite !dict_get_keys, dict_get_set.
  destruct (str_eqb k k') eqn:E.
  - apply str_eqb_eq in E. split; eauto.
  - apply str_eqb_neq in E. split; [auto | intros [?|?]; congruence].
Qed.

Lemma NoDup_keys_dict_set {V} (d : dict V) (k : str) (v : V) :
  NoDup (keys d) -> NoDup (keys (dict_set d k v)).
Proof.
  induction d as [|[k0 v0] d IH]; simpl; intros H.
  - repeat constructor. simpl; tauto.
  - inversion H as [|? ? Hnin Hnd]; subst.
    destruct (str_eqb k0 k) eqn:E; simpl; [constructor; assumption|].
    constructor; [|apply IH, Hnd].
    fold (keys (dict_set d k v)). rewrite keys_dict_set.
    apply str_eqb_neq in E. intros [?|?]; [congruence | contradiction].
Qed.

Lemma dict_get_entry {V} (d : dict V) (k : str) (v : V) :
  NoDup (keys d) -> In (k, v) (items d) -> dict_get d k = Some v.
Proof.
  unfold items. induction d as [|[k0 v0] d IH]; simpl; [tauto|].
  intros Hnd [E | Hin].
  - injection E as -> ->. rewrite str_eqb_refl. reflexivity.
  - inversion Hnd as [|? ? Hk Hd]; subst.
    destruct (str_eqb k0 k) eqn:E; [|apply IH; assumption].
    apply str_eqb_eq in E; subst. exfalso. apply Hk.
    apply in_map_iff. exists (k, v); auto.
Qed.

(* ================================================================== *)
(** ** The frequency table *)

Lemma occurrences_nonneg (w : str) (l : list str) : (0 <= occurrences w l)%Z.
Proof.
  induction l as [|x l IH]; simpl; [lia|]. destruct (str_eqb x w); lia.
Qed.

Lemma occurrences_absent (w : str) (l : list str) :
  ~ In w l -> occurrences w l = 0%Z.
Proof.
  induction l as [|x l IH]; simpl; [reflexivity|]. intros H.
  destruct (str_eqb x w) eqn:E.
  - apply str_eqb_eq in E. tauto.
  - rewrite IH; tauto.
Qed.

Lemma occurrences_once (w : str) (l : list str) :
  NoDup l -> In w l -> occurrences w l = 1%Z.
Proof.
  induction l as [|x l IH]; simpl; [tauto|]. intros Hnd Hin.
  inversion Hnd as [|? ? Hx Hl]; subst.
  destruct (str_eqb x w) eqn:E.
  - apply str_eqb_eq in E; subst. rewrite occurrences_absent by assumption. lia.
  - apply str_eqb_neq in E. rewrite IH; tauto.
Qed.

Lemma count_words_from {R : Runtime} (words : list str) (d : dict Z) :
  let step := fun word_freq word =>
    dict_set word_freq word (dict_get_default word_freq word 0 + 1)%Z in
  (forall w, dict_get_default (fold_left step words d) w 0%Z
             = (dict_get_default d w 0 + occurrences w words)%Z)
  /\ (forall w, In w (keys (fold_left step words d))
                <-> In w (keys d) \/ In w words).
Proof.
  intros step. revert d; induction words as [|x ws IH]; intros d; simpl.
  - split; intros w; [lia | tauto].
  - destruct (IH (step d x)) as [Hv Hk]. split; intros w.
    + rewrite Hv. unfold step at 1. unfold dict_get_default at 1.
      rewrite dict_get_set. destruct (str_eqb x w) eqn:E.
      * apply str_eqb_eq in E; subst. lia.
      * unfold dict_get_default. lia.
    + rewrite Hk. unfold step. rewrite keys_dict_set.
      split; [intros [[->|?]|?] | intros [?|[->|?]]]; auto.
Qed.

Lemma word_freq_counts {R : Runtime} (self : TextSummarizer) (text w : str) :
  dict_get_default (word_freq_of self text) w 0%Z
  = occurrences w (content_words self text).
Proof.
  unfold word_freq_of, count_words.
  rewrite (proj1 (count_words_from (content_words self text) [])).
  reflexivity.
Qed.

Lemma word_freq_keys {R : Runtime} (self : TextSummarizer) (text w : str) :
  In w (keys (word_freq_of self text)) <-> In w (content_words self text).
Proof.
  unfold word_freq_of, count_words.
  rewrite (proj2 (count_words_from (content_words self text) [])).
  simpl; tauto.
Qed.

Lemma set_contains_In (s : list str) (w : str) :
  set_contains s w = true <-> In w s.
Proof.
  unfold set_contains. rewrite existsb_exists. split.
  - intros [x [Hx E]]. apply str_eqb_eq in E; subst; exact Hx.
  - intros H. exists w; split; [exact H | apply str_eqb_refl].
Qed.

(* ================================================================== *)
(** ** Scoring *)

Lemma score_loop (word_freq : dict Z) (tokens : list str) (acc : Z) :
  for_each
    (fun score word =>
       if dict_contains word_freq word
       then v <- dict_getitem word_freq word ;; Ok (score + v)%Z
       else Ok score)
    tokens acc
  = Ok (acc + zsum (map (fun w => dict_get_default word_freq w 0%Z) tokens))%Z.
Proof.
  revert acc; induction tokens as [|w ws IH]; intros acc; simpl.
  - f_equal; lia.
  - unfold dict_contains, dict_getitem, dict_get_default at 1.
    destruct (dict_get word_freq w); simpl; rewrite IH; f_equal; lia.
Qed.

Lemma sentence_score_sum {R : Runtime} (word_freq : dict Z) (sentence : str) :
  sentence_score word_freq sentence
  = Ok (token_frequency_sum word_freq sentence).
Proof.
  unfold sentence_score, token_frequency_sum. rewrite score_loop. reflexivity.
Qed.

Lemma zsum_nonneg (l : list Z) : Forall (fun z => 0 <= z)%Z l -> (0 <= zsum l)%Z.
Proof. induction 1; simpl; lia. Qed.

Lemma zsum_map_add {A} (f g : A -> Z) (l : list A) :
  zsum (map (fun x => f x + g x)%Z l) = (zsum (map f l) + zsum (map g l))%Z.
Proof. induction l; simpl; lia. Qed.

Lemma zsum_map_ext {A} (f g : A -> Z) (l : list A) :
  (forall x, In x l -> f x = g x) -> zsum (map f l) = zsum (map g l).
Proof.
  induction l as [|x l IH]; simpl; intros H; [reflexivity|].
  rewrite (H x), IH; auto.
Qed.

Lemma zsum_indicator (f : str -> Z) (a : str) (l : list str) :
  zsum (map (fun w => (if str_eqb a w then 1 else 0) * f w)%Z l)
  = (occurrences a l * f a)%Z.
Proof.
  induction l as [|x l IH]; simpl; [lia|]. rewrite IH.
  destruct (str_eqb a x) eqn:E.
  - apply str_eqb_eq in E; subst. rewrite str_eqb_refl. lia.
  - apply str_eqb_neq in E.
    assert (E' : str_eqb x a = false) by (apply str_eqb_neq; congruence).
    rewrite E'. lia.
Qed.

(** A word that stands [k] times in a list contributes [k] times. *)
Lemma zsum_by_distinct (f : str -> Z) (l : list str) :
  zsum (map f l)
  = zsum (map (fun w => occurrences w l * f w)%Z (nodup str_eq_dec l)).
Proof.
  induction l as [|a l IH]; [reflexivity|].
  cbn [map zsum nodup occurrences].
  assert (Hsplit : forall l',
    zsum (map (fun w => ((if str_eqb a w then 1 else 0) + occurrences w l)
                        * f w)%Z l')
    = (occurrences a l' * f a
       + zsum (map (fun w => occurrences w l * f w)%Z l'))%Z).
  { intros l'. rewrite <- zsum_indicator, <- zsum_map_add.
    apply zsum_map_ext. intros; lia. }
  destruct (in_dec str_eq_dec a l) as [Hin | Hnin].
  - rewrite Hsplit, <- IH.
    rewrite (occurrences_once a (nodup str_eq_dec l)).
    + lia.
    + apply NoDup_nodup.
    + apply nodup_In, Hin.
  - cbn [map zsum]. rewrite Hsplit, <- IH, str_eqb_refl.
    rewrite (occurrences_absent a l Hnin).
    rewrite (occurrences_absent a (nodup str_eq_dec l)).
    + lia.
    + rewrite nodup_In; exact Hnin.
Qed.

Lemma zsum_map_filter {A} (f : A -> Z) (p : A -> bool) (l : list A) :
  (forall x, p x = false -> f x = 0%Z) ->
  zsum (map f (filter p l)) = zsum (map f l).
Proof.
  intros H. induction l as [|x l IH]; simpl; [reflexivity|].
  destruct (p x) eqn:E; simpl; rewrite IH; [reflexivity|].
  rewrite (H x E). lia.
Qed.

Lemma strip_fixed (s : str) :
  starts_with_space s = false -> ends_with_space s = false -> strip s = s.
Proof.
  intros Hs He. unfold strip, rstrip. rewrite (lstrip_id s Hs).
  rewrite (lstrip_id (rev s) He). apply rev_involutive.
Qed.

Lemma sentences_truthy (text s : str) :
  In s (simple_sentence_tokenize text) -> truthy (strip s) = true.
Proof.
  intros H. unfold simple_sentence_tokenize in H.
  apply in_map_iff in H as [f [<- Hf]]. apply filter_In in Hf as [_ Hf].
  rewrite strip_fixed; [exact Hf | apply strip_starts | apply strip_ends].
Qed.

Lemma score_sentences_from {R : Runtime}
    (word_freq : dict Z) (l : list str) (d0 : dict Z) :
  exists d,
    for_each
      (fun sentence_scores sentence =>
         score <- sentence_score word_freq sentence ;;
         if truthy (strip sentence)
         then Ok (dict_set sentence_scores sentence score)
         else Ok sentence_scores)
      l d0 = Ok d
    /\ (forall k, In k (keys d)
                  <-> In k (keys d0) \/ (In k l /\ truthy (strip k) = true))
    /\ (NoDup (keys d0) -> NoDup (keys d))
    /\ ((forall s z, dict_get d0 s = Some z ->
                     z = token_frequency_sum word_freq s) ->
        forall s z, dict_get d s = Some z ->
                    z = token_frequency_sum word_freq s).
Proof.
  revert d0; induction l as [|x l IH]; intros d0.
  - exists d0; simpl. repeat split; auto; tauto.
  - cbn [for_each]. rewrite sentence_score_sum. cbn [bind].
    destruct (truthy (strip x)) eqn:Hx.
    + destruct (IH (dict_set d0 x (token_frequency_sum word_freq x)))
        as [d [E [Hk [Hnd Hval]]]].
      exists d; split; [exact E|]. split; [|split].
      * intros k. rewrite Hk, keys_dict_set. simpl.
        split; [intros [[->|?]|[? ?]] | intros [?|[[<-|?] ?]]]; auto.
      * intros H. apply Hnd, NoDup_keys_dict_set, H.
      * intros H. apply Hval. intros s z. rewrite dict_get_set.
        destruct (str_eqb x s) eqn:Exs; [|apply H].
        apply str_eqb_eq in Exs; subst. congruence.
    + destruct (IH d0) as [d [E [Hk [Hnd Hval]]]].
      exists d; split; [exact E|]. split; [|split]; auto.
      intros k. rewrite Hk. simpl.
      split; [intros [?|[? ?]] | intros [?|[[<-|?] ?]]]; auto; congruence.
Qed.

(** The score table: one entry per distinct sentence, the keys in order of
    first occurrence, each value the frequency sum of its sentence. *)
Lemma sentence_scores_spec {R : Runtime} (self : TextSummarizer) (text : str) :
  exists d,
    sentence_scores_of self text = Ok d
    /\ NoDup (keys d)
    /\ (forall k, In k (keys d) <-> In k (simple_sentence_tokenize text))
    /\ (forall s, In s (simple_sentence_tokenize text) ->
                  dict_get d s
                  = Some (token_frequency_sum (word_freq_of self text) s))
    /\ (forall s z, dict_get d s = Some z ->
                    z = token_frequency_sum (word_freq_of self text) s).
Proof.
  unfold sentence_scores_of, score_sentences.
  destruct (score_sentences_from (word_freq_of self text)
              (simple_sentence_tokenize text) [])
    as [d [E [Hk [Hnd Hval]]]].
  assert (Hkeys : forall k, In k (keys d)
                            <-> In k (simple_sentence_tokenize text)).
  { intros k. rewrite Hk. simpl. split; [intros [[]|[? _]]; assumption|].
    intros H. right. split; [exact H | apply (sentences_truthy text k H)]. }
  assert (Hvals : forall s z, dict_get d s = Some z ->
                    z = token_frequency_sum (word_freq_of self text) s).
  { apply Hval. intros s z H; discriminate H. }
  exists d. split; [exact E|]. split; [apply Hnd; constructor|].
  split; [exact Hkeys|]. split; [|exact Hvals].
  intros s Hs. apply Hkeys, dict_get_keys in Hs as [z Hz].
  rewrite Hz. f_equal. apply Hvals, Hz.
Qed.

Lemma content_words_spec {R : Runtime} (self : TextSummarizer) (text w : str) :
  In w (content_words self text) ->
  In w (simple_word_tokenize text)
  /\ set_contains (stop_words self) w = false /\ w <> [].
Proof.
  unfold content_words. rewrite filter_In, andb_true_iff, negb_true_iff.
  intros [H [Hs Ht]]. repeat split; auto.
  intros ->. discriminate Ht.
Qed.

Lemma token_frequency_sum_nonneg {R : Runtime}
    (self : TextSummarizer) (text sentence : str) :
  (0 <= token_frequency_sum (word_freq_of self text) sentence)%Z.
Proof.
  unfold token_frequency_sum. apply zsum_nonneg, Forall_forall.
  intros z Hz. apply in_map_iff in Hz as [w [<- _]].
  rewrite word_freq_counts. apply occurrences_nonneg.
Qed.

(** C6: the score of a sentence is the sum, over those of its unfiltered word
    tokens that are keys of the document-wide frequency table, of the table's
    value; a word standing [k] times in the sentence contributes [k] times
    its number of occurrences among the document's content words; every stop
    word has value 0 because it is no key; the score is not negative; and it
    is the value stored for each sentence in the score table. *)
Theorem sentence_score_is_frequency_sum {R : Runtime}
    (self : TextSummarizer) (text sentence : str) :
  exists (score : Z) (sentence_scores : dict Z),
    sentence_score (word_freq_of self text) sentence = Ok score
    /\ score
       = zsum (map (fun w => dict_get_default (word_freq_of self text) w 0%Z)
                   (filter (dict_contains (word_freq_of self text))
                           (simple_word_tokenize sentence)))
    /\ score
       = zsum (map (fun w =>
                      occurrences w (simple_word_tokenize sentence)
                      * occurrences w (content_words self text))%Z
                   (nodup str_eq_dec (simple_word_tokenize sentence)))
    /\ Forall (fun w => dict_contains (word_freq_of self text) w = false
                        /\ dict_get_default (word_freq_of self text) w 0%Z
                           = 0%Z)
              (stop_words self)
    /\ (0 <= score)%Z
    /\ sentence_scores_of self text = Ok sentence_scores
    /\ Forall (fun s => exists z,
                 sentence_score (word_freq_of self text) s = Ok z
                 /\ dict_get sentence_scores s = Some z)
              (simple_sentence_tokenize text).
Proof.
  destruct (sentence_scores_spec self text) as [d [E [_ [_ [Hd _]]]]].
  exists (token_frequency_sum (word_freq_of self text) sentence), d.
  split; [apply sentence_score_sum|]. split; [|split; [|split; [|split]]].
  - unfold token_frequency_sum. symmetry. apply zsum_map_filter.
    intros w. unfold dict_contains, dict_get_default.
    destruct (dict_get (word_freq_of self text) w); [discriminate | reflexivity].
  - unfold token_frequency_sum. rewrite zsum_by_distinct.
    apply zsum_map_ext. intros w _. rewrite word_freq_counts. reflexivity.
  - apply Forall_forall. intros w Hw.
    assert (Hno : ~ In w (keys (word_freq_of self text))).
    { rewrite word_freq_keys. intros Hc.
      apply content_words_spec in Hc as [_ [Hc _]].
      apply set_contains_In in Hw. congruence. }
    split.
    + rewrite <- dict_contains_keys in Hno.
      destruct (dict_contains (word_freq_of self text) w); congruence.
    + rewrite word_freq_counts. apply occurrences_absent.
      rewrite <- word_freq_keys. exact Hno.
  - apply token_frequency_sum_nonneg.
  - split; [exact E|]. apply Forall_forall. intros s Hs.
    exists (token_frequency_sum (word_freq_of self text) s).
    split; [apply sentence_score_sum | apply Hd, Hs].
Qed.

(** No key of the frequency table is a stop word and none is the empty
    token; so when every word token of the document is a stop word the table
    is empty, every sentence scores 0 and every stored score is 0. *)
Theorem frequency_table_excludes_stop_words {R : Runtime}
    (self : TextSummarizer) (text : str) :
  Forall (fun w => set_contains (stop_words self) w = false /\ w <> [])
         (keys (word_freq_of self text))
  /\ (forallb (set_contains (stop_words self)) (simple_word_tokenize text)
      = true ->
      word_freq_of self text = []
      /\ (forall sentence,
             sentence_score (word_freq_of self text) sentence = Ok 0%Z)
      /\ exists sentence_scores,
           sentence_scores_of self text = Ok sentence_scores
           /\ Forall (fun entry => snd entry = 0%Z) (items sentence_scores)).
Proof.
  split.
  - apply Forall_forall. intros w Hw. apply word_freq_keys in Hw.
    apply content_words_spec in Hw. tauto.
  - intros Hall.
    assert (Hnil : content_words self text = []).
    { unfold content_words.
      induction (simple_word_tokenize text) as [|w ws IH]; [reflexivity|].
      simpl in Hall. apply andb_true_iff in Hall as [Hw Hws].
      simpl. rewrite Hw. simpl. apply IH, Hws. }
    assert (Hwf : word_freq_of self text = []).
    { unfold word_freq_of. rewrite Hnil. reflexivity. }
    assert (Hzero : forall sentence,
               token_frequency_sum (word_freq_of self text) sentence = 0%Z).
    { intros sentence. rewrite Hwf. unfold token_frequency_sum.
      induction (simple_word_tokenize sentence); simpl; auto. }
    split; [exact Hwf|]. split.
    + intros sentence. rewrite sentence_score_sum, Hzero. reflexivity.
    + destruct (sentence_scores_spec self text) as [d [E [Hnd [_ [_ Hv]]]]].
      exists d; split; [exact E|]. apply Forall_forall. intros [s z] Hin.
      simpl. rewrite <- (Hzero s). apply Hv.
      apply dict_get_entry; assumption.
Qed.

Lemma frequency_table_excludes_stop_words_witness :
  forallb (set_contains (stop_words demo)) (simple_word_tokenize plain_pronouns)
  = true
  /\ (10 <= len (split plain_pronouns))%Z
  /\ word_freq_of demo plain_pronouns = []
  /\ sentence_score (word_freq_of demo plain_pronouns) plain_pronouns
     = Ok 0%Z.
Proof.
  split; [reflexivity|]. split; [discriminate|].
  destruct (proj2 (@frequency_table_excludes_stop_words
                     ascii_runtime demo plain_pronouns) eq_refl)
    as [H1 [H2 _]].
  split; [exact H1 | apply H2].
Defined.

(** C7, where the code departs from it: the ten words of [contractions] are
    all entries of the stop-word set ("it's", "you're", "she's", "you've",
    "you'll", "you'd"), yet the frequency table is not empty and no sentence
    scores 0.  The tokenizer cuts each word at its apostrophe, so the filter
    of line 99 never meets a contracted entry: it removes "it", "you" and
    "she" and lets "s", "re", "ve", "ll" and "d" through. *)
Lemma contracted_stop_words_are_counted :
  (10 <= len (split contractions))%Z
  /\ forallb (set_contains (stop_words demo))
             (split (ascii_lower
                       (filter (fun c => negb (N.eqb c PERIOD)) contractions)))
     = true
  /\ simple_word_tokenize contractions
     = map lit ["it"; "s"; "you"; "re"; "she"; "s"; "you"; "ve"; "you"; "ll";
                "you"; "d"; "it"; "s"; "it"; "s"; "it"; "s"; "it"; "s"]%string
  /\ word_freq_of demo contractions
     = [(lit "s", 6%Z); (lit "re", 1%Z); (lit "ve", 1%Z); (lit "ll", 1%Z);
        (lit "d", 1%Z)]
  /\ sentence_scores_of demo contractions
     = Ok [(lit "It's you're she's", 13%Z);
           (lit "You've you'll you'd", 3%Z);
           (lit "It's it's it's it's", 24%Z)].
Proof.
  split; [discriminate|]. repeat split; reflexivity.
Qed.

(** The tokenizer puts a space in place of every apostrophe, so the
    contracted entries of the stop-word set never equal a token: "it's" is
    read as the stop word "it" followed by the content word "s". *)
Example contraction_is_two_tokens :
  set_contains (stop_words demo) (lit "it's") = true
  /\ simple_word_tokenize (lit "It's") = [lit "it"; lit "s"]
  /\ word_freq_of demo (lit "It's") = [(lit "s", 1%Z)].
Proof. repeat split; reflexivity. Qed.

(* ================================================================== *)
(** ** Sorting *)

Section SortingFacts.
Context {A : Type} (key : A -> Z) (reverse : bool).

Lemma goes_first_total (x y : A) :
  goes_first key reverse x y = false -> before key reverse y x.
Proof.
  unfold before, goes_first. destruct reverse;
    rewrite Z.leb_gt, Z.leb_le; lia.
Qed.

Lemma goes_first_trans (x y z : A) :
  before key reverse x y -> before key reverse y z -> before key reverse x z.
Proof.
  unfold before, goes_first. destruct reverse; rewrite !Z.leb_le; lia.
Qed.

Lemma insert_sorted_perm (x : A) (l : list A) :
  Permutation (insert_sorted key reverse x l) (x :: l).
Proof.
  induction l as [|y l IH]; simpl; [reflexivity|].
  destruct (goes_first key reverse x y); [reflexivity|].
  rewrite IH. apply perm_swap.
Qed.

Lemma sorted_perm (l : list A) : Permutation (sorted key reverse l) l.
Proof.
  induction l as [|x l IH]; simpl; [reflexivity|].
  rewrite insert_sorted_perm, IH. reflexivity.
Qed.

Lemma insert_sorted_ordered (x : A) (l : list A) :
  StronglySorted (before key reverse) l ->
  StronglySorted (before key reverse) (insert_sorted key reverse x l).
Proof.
  induction 1 as [|y l Hl IH Hy]; simpl.
  - repeat constructor.
  - destruct (goes_first key reverse x y) eqn:E.
    + constructor; [constructor; assumption|].
      constructor; [exact E|].
      rewrite Forall_forall in *. intros z Hz.
      apply (goes_first_trans x y z E), Hy, Hz.
    + constructor; [exact IH|].
      rewrite Forall_forall in *. intros z Hz.
      apply (Permutation_in _ (insert_sorted_perm x l)) in Hz as [<- | Hz].
      * apply goes_first_total, E.
      * apply Hy, Hz.
Qed.

Lemma sorted_ordered (l : list A) :
  StronglySorted (before key reverse) (sorted key reverse l).
Proof.
  induction l as [|x l IH]; simpl; [constructor|].
  apply insert_sorted_ordered, IH.
Qed.

End SortingFacts.

Lemma ascending_keys {A} (l : list (Z * A)) :
  StronglySorted (before fst false) l -> StronglySorted Z.le (map fst l).
Proof.
  induction 1 as [|x l Hl IH Hx]; simpl; constructor; [exact IH|].
  rewrite Forall_forall in *. intros k Hk.
  apply in_map_iff in Hk as [y [<- Hy]].
  apply Z.leb_le. exact (Hx y Hy).
Qed.

Lemma ascending_distinct (l : list Z) :
  StronglySorted Z.le l -> NoDup l -> StronglySorted Z.lt l.
Proof.
  induction 1 as [|x l Hl IH Hx]; intros Hnd; constructor;
    inversion Hnd as [|? ? Hnin Hnd']; subst.
  - apply IH, Hnd'.
  - rewrite Forall_forall in *. intros y Hy.
    assert (x <> y) by (intros ->; contradiction).
    specialize (Hx y Hy). lia.
Qed.

Lemma NoDup_map_transfer {A B C} (f : A -> B) (h : A -> C) (l : list A) :
  (forall a b, In a l -> In b l -> h a = h b -> f a = f b) ->
  NoDup (map f l) -> NoDup (map h l).
Proof.
  induction l as [|a l IH]; simpl; intros Hinj Hnd; [constructor|].
  inversion Hnd as [|? ? Hnin Hnd']; subst. constructor.
  - intros Hin. apply in_map_iff in Hin as [b [Hb Hbl]].
    apply Hnin. apply in_map_iff. exists b. split; [|exact Hbl].
    symmetry. apply Hinj; auto.
  - apply IH; auto.
Qed.

(** *** Slices *)

Lemma slice_to_prefix {A} (l : list A) (n : Z) :
  exists rest, l = slice_to l n ++ rest.
Proof.
  unfold slice_to. destruct (n <? 0)%Z; eexists; symmetry; apply firstn_skipn.
Qed.

Lemma firstn_succ_incl {A} (k : nat) (l : list A) :
  incl (firstn k l) (firstn (S k) l).
Proof.
  revert l; induction k as [|k IH]; intros [|x l] y; simpl; try tauto.
  intros [<- | Hy]; [left; reflexivity | right; apply IH, Hy].
Qed.

Lemma slice_to_succ {A} (l : list A) (n : Z) :
  (0 <= n)%Z -> incl (slice_to l n) (slice_to l (n + 1)).
Proof.
  intros Hn. unfold slice_to.
  destruct (Z.ltb_spec n 0); [lia|]. destruct (Z.ltb_spec (n + 1) 0); [lia|].
  replace (Z.to_nat (n + 1)) with (S (Z.to_nat n)) by lia.
  apply firstn_succ_incl.
Qed.

(** *** Looking up positions *)

Lemma index_range (l : list str) (x : str) (k : Z) :
  index l x = Ok k -> (0 <= k < len l)%Z.
Proof.
  unfold len. revert k; induction l as [|y l IH]; intros k; simpl.
  - discriminate.
  - destruct (str_eqb y x); [intros H; injection H as <-; lia|].
    destruct (index l x) as [k'|]; simpl; [|discriminate].
    intros H; injection H as <-. specialize (IH k' eq_refl). lia.
Qed.

Lemma index_nth (l : list str) (x : str) (k : Z) :
  index l x = Ok k -> nth_error l (Z.to_nat k) = Some x.
Proof.
  revert k; induction l as [|y l IH]; intros k; simpl.
  - discriminate.
  - destruct (str_eqb y x) eqn:E.
    + intros H; injection H as <-. apply str_eqb_eq in E; subst. reflexivity.
    + destruct (index l x) as [k'|] eqn:Ek; simpl; [|discriminate].
      intros H; injection H as <-.
      apply index_range in Ek as Hr.
      replace (Z.to_nat (k' + 1)) with (S (Z.to_nat k')) by lia.
      simpl. apply IH. reflexivity.
Qed.

Lemma index_inj (l : list str) (x y : str) (k : Z) :
  index l x = Ok k -> index l y = Ok k -> x = y.
Proof.
  intros Hx Hy. apply index_nth in Hx, Hy. congruence.
Qed.

Lemma index_found (l : list str) (x : str) :
  In x l -> exists k, index l x = Ok k.
Proof.
  induction l as [|y l IH]; simpl; [tauto|]. intros H.
  destruct (str_eqb y x) eqn:E; [eauto|].
  apply str_eqb_neq in E. destruct IH as [k ->]; [tauto|].
  simpl. eauto.
Qed.

Lemma mapM_positions (sentences : list str) (l : list (str * Z)) :
  (forall x, In x l -> In (fst x) sentences) ->
  exists keyed,
    mapM (fun x => k <- index sentences (fst x) ;; Ok (k, x)) l = Ok keyed
    /\ map snd keyed = l
    /\ Forall (fun kx => index sentences (fst (snd kx)) = Ok (fst kx)) keyed.
Proof.
  induction l as [|x l IH]; intros Hin.
  - exists []; simpl; auto.
  - destruct IH as [keyed [E [Hs Hk]]]; [intros; apply Hin; right; assumption|].
    destruct (index_found sentences (fst x)) as [k Ek];
      [apply Hin; left; reflexivity|].
    exists ((k, x) :: keyed). cbn [mapM]. rewrite Ek. cbn [bind].
    rewrite E. cbn [bind]. simpl. rewrite Hs. repeat split; auto.
Qed.

Lemma mapM_index_positions (sentences : list str) (keyed : list (Z * (str * Z))) :
  Forall (fun kx => index sentences (fst (snd kx)) = Ok (fst kx)) keyed ->
  mapM (index sentences) (map fst (map snd keyed)) = Ok (map fst keyed).
Proof.
  induction 1 as [|kx keyed Hkx _ IH]; simpl; [reflexivity|].
  rewrite Hkx. cbn [bind]. rewrite IH. reflexivity.
Qed.

Lemma mapM_index_nth (sentences l : list str) (positions : list Z) :
  mapM (index sentences) l = Ok positions ->
  Forall2 (fun s k => nth_error sentences (Z.to_nat k) = Some s) l positions.
Proof.
  revert positions; induction l as [|x l IH]; intros positions; simpl.
  - intros H; injection H as <-. constructor.
  - destruct (index sentences x) as [k|] eqn:Ek; simpl; [|discriminate].
    destruct (mapM (index sentences) l) as [ks|]; simpl; [|discriminate].
    intros H; injection H as <-. constructor; [apply index_nth, Ek|].
    apply IH; reflexivity.
Qed.

(* ================================================================== *)
(** ** Selection *)

(** What lines 115-121 compute, for every text and every integer [n]: the
    chosen entries are a prefix of the ranking, the position lookups all
    succeed, and the chosen sentences come out by increasing position. *)
Lemma ordered_summary_spec {R : Runtime}
    (self : TextSummarizer) (text : str) (n : Z) :
  exists d ordered positions,
    sentence_scores_of self text = Ok d
    /\ (forall k, In k (keys d) <-> In k (simple_sentence_tokenize text))
    /\ summary_sentences self text n
       = Ok (slice_to (sorted snd true (items d)) n)
    /\ ordered_summary self text n = Ok ordered
    /\ Permutation ordered (map fst (slice_to (sorted snd true (items d)) n))
    /\ mapM (index (simple_sentence_tokenize text)) ordered = Ok positions
    /\ StronglySorted Z.lt positions.
Proof.
  destruct (sentence_scores_spec self text) as [d [E [Hnd [Hkeys _]]]].
  set (sentences := simple_sentence_tokenize text) in *.
  set (ranking := sorted snd true (items d)).
  set (chosen := slice_to ranking n).
  assert (Hrank : Permutation ranking d) by apply sorted_perm.
  destruct (slice_to_prefix ranking n) as [rest Hrest]. fold chosen in Hrest.
  assert (Hchosen_nd : NoDup (map fst chosen)).
  { assert (Hall : NoDup (map fst ranking)).
    { apply (Permutation_NoDup (Permutation_sym (Permutation_map fst Hrank))).
      exact Hnd. }
    rewrite Hrest, map_app in Hall.
    apply (NoDup_app_remove_r _ _ Hall). }
  assert (Hchosen_in : forall x, In x chosen -> In (fst x) sentences).
  { intros x Hx. apply Hkeys. apply in_map.
    apply (Permutation_in _ Hrank). rewrite Hrest.
    apply in_or_app; left; exact Hx. }
  destruct (mapM_positions sentences chosen Hchosen_in)
    as [keyed [Ekeyed [Hsnd Hidx]]].
  set (ranked := sorted fst false keyed).
  assert (Hperm : Permutation ranked keyed) by apply sorted_perm.
  assert (Hidx' : Forall (fun kx => index sentences (fst (snd kx))
                                    = Ok (fst kx)) ranked).
  { rewrite Forall_forall in *. intros kx Hkx.
    apply Hidx, (Permutation_in _ Hperm), Hkx. }
  exists d, (map fst (map snd ranked)), (map fst ranked).
  split; [exact E|]. split; [exact Hkeys|].
  assert (Esum : summary_sentences self text n = Ok chosen).
  { unfold summary_sentences. rewrite E. reflexivity. }
  split; [exact Esum|]. split; [|split; [|split]].
  - unfold ordered_summary. rewrite Esum. cbn [bind]. unfold sorted_by.
    fold sentences. rewrite Ekeyed. reflexivity.
  - change (Permutation (map fst (map snd ranked)) (map fst chosen)).
    rewrite <- Hsnd. apply Permutation_map, Permutation_map, Hperm.
  - apply mapM_index_positions, Hidx'.
  - apply ascending_distinct.
    + apply ascending_keys. apply sorted_ordered.
    + apply (Permutation_NoDup (Permutation_sym (Permutation_map fst Hperm))).
      apply (NoDup_map_transfer (fun kx => fst (snd kx)) fst).
      * rewrite Forall_forall in Hidx. intros a b Ha Hb Hab.
        apply (index_inj sentences _ _ (fst a)); [apply Hidx, Ha|].
        rewrite Hab. apply Hidx, Hb.
      * rewrite <- (map_map snd fst), Hsnd. exact Hchosen_nd.
Qed.

Lemma extractive_summarize_selects {R : Runtime}
    (self : TextSummarizer) (text : str) (n : Z) (ordered : list str) :
  (10 <= len (split text))%Z ->
  (n < len (simple_sentence_tokenize text))%Z ->
  ordered_summary self text n = Ok ordered ->
  extractive_summarize self text n = join (lit " ") ordered.
Proof.
  intros Hw Hn E. unfold extractive_summarize, extractive_try.
  rewrite (too_short_enough_words text Hw).
  apply Z.leb_gt in Hn. rewrite Hn, E. reflexivity.
Qed.

(** C4: when selection takes place (at least ten words, more sentences than
    [n]), the output is the chosen sentences joined by single spaces, every
    chosen sentence is found in the sentence sequence, and the positions at
    which they are found, read in output order, increase strictly. *)
Theorem summary_keeps_document_order {R : Runtime}
    (self : TextSummarizer) (text : str) (n : Z) :
  (10 <= len (split text))%Z ->
  (n < len (simple_sentence_tokenize text))%Z ->
  exists (ordered : list str) (positions : list Z),
    ordered_summary self text n = Ok ordered
    /\ extractive_summarize self text n = join (lit " ") ordered
    /\ mapM (index (simple_sentence_tokenize text)) ordered = Ok positions
    /\ Forall2 (fun s k =>
                  nth_error (simple_sentence_tokenize text) (Z.to_nat k)
                  = Some s)
               ordered positions
    /\ StronglySorted Z.lt positions.
Proof.
  intros Hw Hn.
  destruct (ordered_summary_spec self text n)
    as [d [ordered [positions [_ [_ [_ [E [_ [Hpos Hlt]]]]]]]]].
  exists ordered, positions. split; [exact E|].
  split; [apply extractive_summarize_selects; assumption|].
  split; [exact Hpos|]. split; [apply mapM_index_nth, Hpos | exact Hlt].
Qed.

Lemma summary_keeps_document_order_witness :
  (10 <= len (split cats))%Z
  /\ (2 < len (simple_sentence_tokenize cats))%Z
  /\ exists (ordered : list str) (positions : list Z),
       ordered_summary demo cats 2 = Ok ordered
       /\ extractive_summarize demo cats 2 = join (lit " ") ordered
       /\ mapM (index (simple_sentence_tokenize cats)) ordered = Ok positions
       /\ Forall2 (fun s k =>
                     nth_error (simple_sentence_tokenize cats) (Z.to_nat k)
                     = Some s)
                  ordered positions
       /\ StronglySorted Z.lt positions.
Proof.
  split; [discriminate|]. split; [reflexivity|].
  apply (@summary_keeps_document_order ascii_runtime demo cats 2);
    [discriminate | reflexivity].
Defined.

(** C5: for a count [n >= 0] with [n + 1] at most the number of sentences,
    every sentence of the summary for [n] is a sentence of the summary for
    [n + 1]; when [n + 1] equals the number of sentences the result for
    [n + 1] is the whole text, whose sentence sequence holds them all (and a
    text under ten words gives the same fixed message for both counts).  No
    assumption on ties is needed: both summaries are prefixes of one and the
    same ranking. *)
Theorem larger_count_keeps_sentences {R : Runtime}
    (self : TextSummarizer) (text : str) (n : Z) :
  (0 <= n)%Z ->
  (n + 1 <= len (simple_sentence_tokenize text))%Z ->
  exists (smaller larger : list str),
    ordered_summary self text n = Ok smaller
    /\ ordered_summary self text (n + 1) = Ok larger
    /\ extractive_summarize self text n
       = (if too_short text then TOO_SHORT else join (lit " ") smaller)
    /\ extractive_summarize self text (n + 1)
       = (if too_short text then TOO_SHORT
          else if (n + 1 <? len (simple_sentence_tokenize text))%Z
               then join (lit " ") larger
               else text)
    /\ incl smaller larger
    /\ incl smaller (simple_sentence_tokenize text).
Proof.
  intros Hn Hle.
  destruct (ordered_summary_spec self text n)
    as [d [smaller [ps [Ed [Hkeys [_ [Es [Hps _]]]]]]]].
  destruct (ordered_summary_spec self text (n + 1))
    as [d' [larger [pl [Ed' [_ [_ [El [Hpl _]]]]]]]].
  assert (d' = d) by congruence. subst d'.
  assert (Hin : forall s, In s smaller ->
                  In s (map fst (slice_to (sorted snd true (items d)) n))).
  { intros s Hs. apply (Permutation_in _ Hps), Hs. }
  exists smaller, larger. split; [exact Es|]. split; [exact El|].
  split; [|split; [|split]].
  - unfold extractive_summarize, extractive_try.
    destruct (too_short text); [reflexivity|].
    destruct (Z.leb_spec (len (simple_sentence_tokenize text)) n); [lia|].
    rewrite Es. reflexivity.
  - unfold extractive_summarize, extractive_try.
    destruct (too_short text); [reflexivity|].
    destruct (Z.ltb_spec (n + 1) (len (simple_sentence_tokenize text)));
      destruct (Z.leb_spec (len (simple_sentence_tokenize text)) (n + 1));
      try lia; [rewrite El|]; reflexivity.
  - intros s Hs. apply (Permutation_in _ (Permutation_sym Hpl)).
    apply Hin, in_map_iff in Hs as [x [<- Hx]].
    apply in_map, slice_to_succ; assumption.
  - intros s Hs. apply Hkeys.
    apply Hin, in_map_iff in Hs as [x [<- Hx]]. apply in_map.
    apply (Permutation_in _ (sorted_perm snd true (items d))).
    destruct (slice_to_prefix (sorted snd true (items d)) n) as [rest ->].
    apply in_or_app; left; exact Hx.
Qed.

Lemma larger_count_keeps_sentences_witness :
  (0 <= 1)%Z
  /\ (1 + 1 <= len (simple_sentence_tokenize cats))%Z
  /\ exists (smaller larger : list str),
       ordered_summary demo cats 1 = Ok smaller
       /\ ordered_summary demo cats (1 + 1) = Ok larger
       /\ extractive_summarize demo cats 1
          = (if too_short cats then TOO_SHORT else join (lit " ") smaller)
       /\ extractive_summarize demo cats (1 + 1)
          = (if too_short cats then TOO_SHORT
             else if (1 + 1 <? len (simple_sentence_tokenize cats))%Z
                  then join (lit " ") larger
                  else cats)
       /\ incl smaller larger
       /\ incl smaller (simple_sentence_tokenize cats).
Proof.
  split; [discriminate|]. split; [discriminate|].
  apply (@larger_count_keeps_sentences ascii_runtime demo cats 1);
    discriminate.
Defined.

(** A negative count is sliced from the end of the ranking, so [-1] keeps two
    of the three sentences of [cats] while [0] keeps none. *)
Example negative_count_slices_from_the_end :
  extractive_summarize demo cats (-1)
  = lit "Cats are great Cats are independent animals"
  /\ extractive_summarize demo cats 0 = [].
Proof. split; reflexivity. Qed.

(* ================================================================== *)
(** ** Determinism and totality *)

Lemma content_words_same_set {R : Runtime}
    (self1 self2 : TextSummarizer) (text : str) :
  (forall w, In w (stop_words self1) <-> In w (stop_words self2)) ->
  content_words self1 text = content_words self2 text.
Proof.
  intros H. unfold content_words. apply filter_ext. intros w.
  f_equal. f_equal.
  destruct (set_contains (stop_words self1) w) eqn:E1;
    destruct (set_contains (stop_words self2) w) eqn:E2; try reflexivity.
  - apply set_contains_In, H, set_contains_In in E1. congruence.
  - apply set_contains_In, H, set_contains_In in E2. congruence.
Qed.

(** C9: the output of [extractive_summarize] is determined by [text] and
    [n].  Two summarizer objects whose stop-word sets have the same members,
    whatever their clients and however the sets are laid out, return the same
    string; so do any two objects made by the constructor, whatever the API
    keys. *)
Theorem extractive_summarize_deterministic {R : Runtime}
    (self1 self2 : TextSummarizer) (key1 key2 text : str) (n : Z) :
  (forall w, In w (stop_words self1) <-> In w (stop_words self2)) ->
  extractive_summarize self1 text n = extractive_summarize self2 text n
  /\ extractive_summarize (__init__ key1) text n
     = extractive_summarize (__init__ key2) text n.
Proof.
  intros H. split; [|reflexivity].
  unfold extractive_summarize, extractive_try, ordered_summary,
    summary_sentences, sentence_scores_of, word_freq_of.
  rewrite (content_words_same_set self1 self2 text H). reflexivity.
Qed.

Lemma extractive_summarize_deterministic_witness :
  (forall w, In w (stop_words demo) <-> In w (stop_words demo_shuffled))
  /\ extractive_summarize demo cats 2
     = extractive_summarize demo_shuffled cats 2
  /\ extractive_summarize (__init__ (lit "first key")) cats 2
     = extractive_summarize (__init__ (lit "second key")) cats 2.
Proof.
  assert (H : forall w, In w (stop_words demo)
                        <-> In w (stop_words demo_shuffled)).
  { intros w. unfold demo_shuffled. cbn [stop_words In].
    rewrite <- in_rev. split; [tauto|]. intros [<- | Hw]; [|exact Hw].
    left; reflexivity. }
  split; [exact H|].
  exact (@extractive_summarize_deterministic ascii_runtime demo demo_shuffled
           (lit "first key") (lit "second key") cats 2 H).
Defined.

(** C10: for every text and every integer [n] the body of the [try] block
    returns a string and raises nothing, so the result of
    [extractive_summarize] is that string and the [except] branch is never
    taken; every key of the score table is found by [index] in the sentence
    list. *)
Theorem extractive_summarize_total {R : Runtime}
    (self : TextSummarizer) (text : str) (n : Z) :
  (exists summary,
      extractive_try self text n = Ok summary
      /\ extractive_summarize self text n = summary)
  /\ (exists sentence_scores,
         sentence_scores_of self text = Ok sentence_scores
         /\ Forall (fun s => exists k,
                      index (simple_sentence_tokenize text) s = Ok k)
                   (keys sentence_scores))
  /\ (exists chosen,
         summary_sentences self text n = Ok chosen
         /\ Forall (fun x => exists k,
                      index (simple_sentence_tokenize text) (fst x) = Ok k)
                   chosen).
Proof.
  destruct (ordered_summary_spec self text n)
    as [d [ordered [positions [Ed [Hkeys [Es [Eo [Hperm _]]]]]]]].
  split; [|split].
  - unfold extractive_summarize, extractive_try.
    destruct (too_short text); [eauto|].
    destruct (len (simple_sentence_tokenize text) <=? n)%Z; [eauto|].
    rewrite Eo. cbn [bind]. eauto.
  - exists d. split; [exact Ed|]. apply Forall_forall. intros s Hs.
    apply index_found, Hkeys, Hs.
  - eexists. split; [exact Es|]. apply Forall_forall. intros x Hx.
    apply index_found, Hkeys. apply in_map.
    apply (Permutation_in _ (sorted_perm snd true (items d))).
    destruct (slice_to_prefix (sorted snd true (items d)) n) as [rest Hr].
    rewrite Hr. apply in_or_app; left; exact Hx.
Qed.

(* ================================================================== *)
(** ** Words *)

Lemma split_cons (c : char) (rest : str) :
  split (c :: rest)
  = if isspace c then split rest
    else match rest with
         | [] => [[c]]
         | d :: _ =>
             if isspace d then [c] :: split rest
             else match split rest with
                  | w :: ws => (c :: w) :: ws
                  | [] => [[c]]
                  end
         end.
Proof. destruct rest; reflexivity. Qed.

Lemma split_words (s : str) :
  Forall (fun w => w <> [] /\ forallb nonspace w = true) (split s)
  /\ concat (split s) = filter nonspace s.
Proof.
  induction s as [|c rest [IHw IHc]]; [split; [constructor | reflexivity]|].
  assert (Hf : filter nonspace (c :: rest)
               = if isspace c then filter nonspace rest
                 else c :: filter nonspace rest).
  { cbn [filter]. unfold nonspace at 1. destruct (isspace c); reflexivity. }
  rewrite split_cons, Hf. clear Hf.
  destruct (isspace c) eqn:Hc; [split; assumption|].
  assert (Hone : [c] <> [] /\ forallb nonspace [c] = true).
  { split; [discriminate|]. simpl. unfold nonspace. rewrite Hc. reflexivity. }
  destruct rest as [|d rest'].
  - split; [repeat constructor; apply Hone | reflexivity].
  - destruct (isspace d) eqn:Hd.
    + split; [constructor; assumption|]. cbn [concat app]. rewrite IHc.
      reflexivity.
    + destruct (split (d :: rest')) as [|w ws].
      * split; [repeat constructor; apply Hone|]. cbn [concat app].
        rewrite <- IHc. reflexivity.
      * inversion IHw as [|? ? [Hw1 Hw2] Hws]; subst. split.
        -- constructor; [|assumption]. split; [discriminate|].
           cbn [forallb]. unfold nonspace at 1. rewrite Hc, Hw2. reflexivity.
        -- cbn [concat app] in *. rewrite <- IHc. reflexivity.
Qed.



(** When the lower-cased text holds word characters and whitespace only (it
    does unless lower-casing brings in a character of another kind, as the
    combining dot in the lower-case form of U+0130), every token consists of
    word characters only: no punctuation survives tokenization. *)
Theorem word_tokens_are_words {R : Runtime} (text : str) :
  forallb (fun c => is_word c || isspace c) (lower (sub_nonword text)) = true ->
  Forall (fun w => forallb is_word w = true) (simple_word_tokenize text).
Proof.
  intros Hcls. unfold simple_word_tokenize.
  destruct (split_words (lower (sub_nonword text))) as [Hw Hc].
  rewrite forallb_forall in Hcls.
  rewrite Forall_forall in *. intros w Hin.
  destruct (Hw w Hin) as [_ Hns]. rewrite forallb_forall in *.
  intros c Hcw. specialize (Hns c Hcw).
  assert (Hin' : In c (filter nonspace (lower (sub_nonword text)))).
  { rewrite <- Hc. apply in_concat. exists w; split; assumption. }
  apply filter_In in Hin' as [Hin' _]. specialize (Hcls c Hin').
  unfold nonspace in Hns. apply negb_true_iff in Hns.
  rewrite Hns, orb_false_r in Hcls. exact Hcls.
Qed.

Lemma word_tokens_are_words_witness :
  forallb (fun c => @is_word ascii_runtime c || isspace c)
          (lower (sub_nonword (lit "Wait... It's HERE, isn't it?"))) = true
  /\ Forall (fun w => forallb (@is_word ascii_runtime) w = true)
            (simple_word_tokenize (lit "Wait... It's HERE, isn't it?")).
Proof.
  split; [reflexivity|].
  apply (@word_tokens_are_words ascii_runtime
           (lit "Wait... It's HERE, isn't it?")).
  reflexivity.
Defined.

(* ================================================================== *)
(** ** Sentences *)

Lemma sub_ws_nonterminator (t : str) :
  forallb nonterminator t = true -> forallb nonterminator (sub_ws t) = true.
Proof.
  rewrite !forallb_forall. intros H c Hc.
  apply sub_ws_from_chars in Hc as [-> | [Hc _]]; [reflexivity | apply H, Hc].
Qed.

Lemma tokenize_plain (text : str) :
  forallb nonterminator text = true ->
  simple_sentence_tokenize text
  = map strip (filter (fun s => truthy (strip s)) [sub_ws text]).
Proof.
  intros H. unfold simple_sentence_tokenize, re_split.
  rewrite (re_split_plain _ (sub_ws_nonterminator text H)). reflexivity.
Qed.

(** A text without '.', '!' or '?' is one sentence, its whitespace collapsed
    and trimmed; if it is empty or all whitespace there is no sentence. *)
Theorem sentence_tokenize_without_terminator (text : str) :
  forallb nonterminator text = true ->
  simple_sentence_tokenize text
  = if truthy (strip (sub_ws text)) then [strip (sub_ws text)] else [].
Proof.
  intros H. rewrite (tokenize_plain text H). cbn [filter].
  destruct (truthy (strip (sub_ws text))); reflexivity.
Qed.

Lemma sentence_tokenize_without_terminator_witness :
  forallb nonterminator (lit "  no   full stop here ") = true
  /\ simple_sentence_tokenize (lit "  no   full stop here ")
     = [lit "no full stop here"]
  /\ simple_sentence_tokenize (lit "   ") = [].
Proof.
  split; [reflexivity|]. split.
  - exact (sentence_tokenize_without_terminator
             (lit "  no   full stop here ") eq_refl).
  - exact (sentence_tokenize_without_terminator (lit "   ") eq_refl).
Defined.

Lemma double_space_tail (c : char) (s : str) :
  double_space (c :: s) = false -> double_space s = false.
Proof. intros H. apply (double_space_app [c] s) in H. apply H. Qed.

Lemma sub_ws_from_fixed (b : bool) (t : str) :
  (b = true -> starts_with_space t = false) ->
  plain_spaced t = true -> double_space t = false ->
  sub_ws_from b t = t.
Proof.
  revert b; induction t as [|c t IH]; intros b Hb Hp Hd; [reflexivity|].
  unfold plain_spaced in Hp. cbn [forallb] in Hp.
  apply andb_true_iff in Hp as [Hc Hp]. fold (plain_spaced t) in Hp.
  pose proof (double_space_tail c t Hd) as Hd'.
  cbn [sub_ws_from]. destruct (isspace c) eqn:Ec.
  - unfold nonspace in Hc. rewrite Ec in Hc. cbn in Hc.
    apply N.eqb_eq in Hc. subst c.
    destruct b; [specialize (Hb eq_refl); discriminate Hb|].
    f_equal. apply IH; auto. intros _.
    destruct t as [|d t']; [reflexivity|]. cbn [starts_with_space].
    rewrite double_space_cons2 in Hd. apply orb_false_iff in Hd as [Hd _].
    rewrite N.eqb_refl in Hd. cbn [andb] in Hd.
    unfold plain_spaced in Hp. cbn [forallb] in Hp.
    apply andb_true_iff in Hp as [Hdp _]. rewrite Hd, orb_false_r in Hdp.
    unfold nonspace in Hdp. apply negb_true_iff in Hdp. exact Hdp.
  - f_equal. apply IH; auto. discriminate.
Qed.

Lemma clean_sentence_spec (s : str) :
  clean_sentence s = true ->
  s <> [] /\ starts_with_space s = false /\ ends_with_space s = false
  /\ forallb nonterminator s = true /\ plain_spaced s = true
  /\ double_space s = false.
Proof.
  unfold clean_sentence. rewrite !andb_true_iff, !negb_true_iff.
  intros [[[[[H1 H2] H3] H4] H5] H6]. repeat split; auto.
  apply truthy_true, H1.
Qed.

Lemma strip_after_space (s : str) :
  starts_with_space s = false -> ends_with_space s = false ->
  strip (SPACE :: s) = s.
Proof.
  intros Hs He. unfold strip. cbn [lstrip]. rewrite space_is_space.
  exact (strip_fixed s Hs He).
Qed.

Lemma double_space_junction (a b : str) :
  double_space a = false -> double_space b = false ->
  match b with d :: _ => N.eqb d SPACE = false | [] => True end ->
  double_space (a ++ b) = false.
Proof.
  intros Ha Hb Hj. induction a as [|c a IH]; [exact Hb|].
  pose proof (double_space_tail c a Ha) as Ha'.
  destruct a as [|c' a'].
  - cbn [app]. destruct b as [|d b']; [reflexivity|].
    rewrite double_space_cons2, Hb, Hj, andb_false_r. reflexivity.
  - cbn [app] in *. rewrite double_space_cons2 in *.
    apply orb_false_iff in Ha as [Hcc _]. rewrite Hcc, (IH Ha'). reflexivity.
Qed.

Lemma starts_with_space_app (a b : str) :
  a <> [] -> starts_with_space (a ++ b) = starts_with_space a.
Proof. destruct a; [congruence | reflexivity]. Qed.

Lemma plain_spaced_app (a b : str) :
  plain_spaced (a ++ b) = plain_spaced a && plain_spaced b.
Proof. apply forallb_app. Qed.

(** The text made of clean sentences set apart by ". ". *)
Lemma joined_sentences (s : str) (l : list str) :
  forallb clean_sentence (s :: l) = true ->
  let text := join [PERIOD; SPACE] (s :: l) in
  text <> [] /\ starts_with_space text = false
  /\ plain_spaced text = true /\ double_space text = false
  /\ re_split_from false text = s :: map (cons SPACE) l.
Proof.
  revert s; induction l as [|s' l IH]; intros s Hall;
    cbn [forallb] in Hall; apply andb_true_iff in Hall as [Hs Hl];
    apply clean_sentence_spec in Hs as [Hne [Hst [Hen [Hnt [Hpl Hds]]]]].
  - cbn [join]. repeat split; auto. apply re_split_plain, Hnt.
  - destruct (IH s' Hl) as [Tne [Tst [Tpl [Tds Tsp]]]].
    set (rest := join [PERIOD; SPACE] (s' :: l)) in *.
    change (join [PERIOD; SPACE] (s :: s' :: l))
      with (s ++ [PERIOD; SPACE] ++ rest).
    cbn [app]. cbv zeta. split; [destruct s; [congruence | discriminate]|].
    split; [rewrite starts_with_space_app; assumption|].
    split; [|split].
    + rewrite plain_spaced_app, Hpl. unfold plain_spaced. cbn [forallb].
      fold (plain_spaced rest). rewrite Tpl. reflexivity.
    + apply double_space_junction; [assumption | | reflexivity].
      apply double_space_after; [left; reflexivity|].
      apply double_space_after; [right; exact Tst | exact Tds].
    + rewrite (re_split_fragment s (SPACE :: rest) PERIOD Hnt eq_refl).
      f_equal.
      change (re_split_from true (SPACE :: rest))
        with (match re_split_from false rest with
              | f :: fs => (SPACE :: f) :: fs
              | [] => [[SPACE]]
              end).
      rewrite Tsp. reflexivity.
Qed.

Lemma tokenize_spaced_fragments (l : list str) :
  forallb clean_sentence l = true ->
  map strip (filter (fun s => truthy (strip s)) (map (cons SPACE) l)) = l.
Proof.
  induction l as [|s l IH]; [reflexivity|]. cbn [forallb map filter].
  rewrite andb_true_iff. intros [Hs Hl].
  apply clean_sentence_spec in Hs as [Hne [Hst [Hen _]]].
  rewrite (strip_after_space s Hst Hen).
  apply truthy_true in Hne. rewrite Hne. cbn [map].
  rewrite (strip_after_space s Hst Hen), (IH Hl). reflexivity.
Qed.

(** Round trip: sentences that are non-empty, trimmed, singly spaced and
    free of terminators, written one after the other with ". " between them
    (and, if one likes, a closing period), are recovered exactly by
    [simple_sentence_tokenize]. *)
Theorem sentence_tokenize_join (l : list str) :
  forallb clean_sentence l = true ->
  simple_sentence_tokenize (join (lit ". ") l) = l
  /\ simple_sentence_tokenize (join (lit ". ") l ++ lit ".") = l.
Proof.
  intros Hall.
  assert (Hmain : simple_sentence_tokenize (join (lit ". ") l) = l).
  { destruct l as [|s l]; [reflexivity|].
    change (lit ". ") with [PERIOD; SPACE].
    destruct (joined_sentences s l Hall) as [_ [Tst [Tpl [Tds Tsp]]]].
    unfold simple_sentence_tokenize, sub_ws, re_split.
    rewrite sub_ws_from_fixed by (auto; discriminate). rewrite Tsp.
    cbn [forallb] in Hall. apply andb_true_iff in Hall as [Hs Hl].
    apply clean_sentence_spec in Hs as [Hne [Hs1 [Hs2 _]]].
    cbn [filter]. rewrite (strip_fixed s Hs1 Hs2).
    apply truthy_true in Hne. rewrite Hne. cbn [map].
    rewrite (strip_fixed s Hs1 Hs2), (tokenize_spaced_fragments l Hl).
    reflexivity. }
  split; [exact Hmain|].
  change (lit ".") with [PERIOD]. rewrite tokenize_snoc by reflexivity.
  exact Hmain.
Qed.

Lemma sentence_tokenize_join_witness :
  forallb clean_sentence [lit "Cats are great"; lit "Cats sleep a lot"] = true
  /\ simple_sentence_tokenize
       (join (lit ". ") [lit "Cats are great"; lit "Cats sleep a lot"])
     = [lit "Cats are great"; lit "Cats sleep a lot"]
  /\ simple_sentence_tokenize
       (join (lit ". ") [lit "Cats are great"; lit "Cats sleep a lot"]
        ++ lit ".")
     = [lit "Cats are great"; lit "Cats sleep a lot"].
Proof.
  split; [reflexivity|].
  exact (sentence_tokenize_join
           [lit "Cats are great"; lit "Cats sleep a lot"] eq_refl).
Defined.

(* ================================================================== *)
(** ** The frequency table, as a whole *)

Lemma zsum_values_dict_set (d : dict Z) (k : str) :
  zsum (map snd (dict_set d k (dict_get_default d k 0 + 1)%Z))
  = (zsum (map snd d) + 1)%Z.
Proof.
  unfold dict_get_default.
  induction d as [|[k0 v0] d IH]; cbn [dict_set dict_get]; [reflexivity|].
  destruct (str_eqb k0 k); cbn [map snd zsum]; [lia|].
  rewrite IH. lia.
Qed.

Lemma count_words_total {R : Runtime} (words : list str) (d : dict Z) :
  let step := fun word_freq word =>
    dict_set word_freq word (dict_get_default word_freq word 0 + 1)%Z in
  zsum (map snd (fold_left step words d)) = (zsum (map snd d) + len words)%Z
  /\ (NoDup (keys d) -> NoDup (keys (fold_left step words d))).
Proof.
  intros step. unfold len.
  revert d; induction words as [|w ws IH]; intros d; cbn [fold_left length].
  - split; [lia | auto].
  - destruct (IH (step d w)) as [Hsum Hnd]. split.
    + rewrite Hsum. unfold step at 1. rewrite zsum_values_dict_set. lia.
    + intros H. apply Hnd. unfold step. apply NoDup_keys_dict_set, H.
Qed.

(** The frequency table has one entry per distinct content word, every count
    is at least 1 and equals the number of occurrences of its word, and the
    counts add up to the number of content words of the document. *)
Theorem frequency_table_counts {R : Runtime}
    (self : TextSummarizer) (text : str) :
  NoDup (keys (word_freq_of self text))
  /\ Forall (fun entry =>
               snd entry = occurrences (fst entry) (content_words self text)
               /\ (1 <= snd entry)%Z)
            (items (word_freq_of self text))
  /\ zsum (map snd (items (word_freq_of self text)))
     = len (content_words self text).
Proof.
  destruct (count_words_total (content_words self text) []) as [Hsum Hnd].
  specialize (Hnd (NoDup_nil _)).
  fold (count_words (content_words self text)) in Hsum, Hnd.
  fold (word_freq_of self text) in Hsum, Hnd.
  split; [exact Hnd|]. split; [|exact Hsum].
  apply Forall_forall. intros [w v] Hin. cbn [fst snd].
  pose proof (dict_get_entry _ w v Hnd Hin) as Hget.
  pose proof (word_freq_counts self text w) as Hcount.
  unfold dict_get_default in Hcount. rewrite Hget in Hcount.
  split; [exact Hcount|]. rewrite Hcount.
  assert (Hw : In w (content_words self text)).
  { apply word_freq_keys. apply in_map_iff. exists (w, v); auto. }
  clear - Hw. induction (content_words self text) as [|x l IH];
    [contradiction|]. cbn [occurrences].
  pose proof (occurrences_nonneg w l).
  destruct Hw as [-> | Hw]; [rewrite str_eqb_refl; lia|].
  specialize (IH Hw). destruct (str_eqb x w); lia.
Qed.

(* ================================================================== *)
(** ** The score table and the ranking *)

Lemma str_eqb_sym (a b : str) : str_eqb a b = str_eqb b a.
Proof.
  destruct (str_eqb a b) eqn:E; symmetry.
  - apply str_eqb_eq in E. subst. apply str_eqb_refl.
  - apply str_eqb_neq in E. apply str_eqb_neq. congruence.
Qed.

Lemma keys_dict_set_order {V} (d : dict V) (k : str) (v : V) :
  keys (dict_set d k v)
  = if set_contains (keys d) k then keys d else keys d ++ [k].
Proof.
  induction d as [|[k0 v0] d IH]; [reflexivity|].
  cbn [dict_set keys map fst set_contains existsb].
  rewrite (str_eqb_sym k k0). destruct (str_eqb k0 k); [reflexivity|].
  cbn [orb map fst]. fold (keys (dict_set d k v)). rewrite IH.
  fold (keys d). fold (set_contains (keys d) k).
  destruct (set_contains (keys d) k); reflexivity.
Qed.

Lemma score_sentences_keys {R : Runtime}
    (word_freq : dict Z) (l : list str) (d0 d : dict Z) :
  Forall (fun s => truthy (strip s) = true) l ->
  for_each
    (fun sentence_scores sentence =>
       score <- sentence_score word_freq sentence ;;
       if truthy (strip sentence)
       then Ok (dict_set sentence_scores sentence score)
       else Ok sentence_scores)
    l d0 = Ok d ->
  keys d
  = fold_left (fun seen s => if set_contains seen s then seen else seen ++ [s])
              l (keys d0).
Proof.
  intros Hall. revert d0; induction Hall as [|s l Hs _ IH]; intros d0.
  - cbn. intros H; injection H as <-. reflexivity.
  - cbn [for_each fold_left]. rewrite sentence_score_sum. cbn [bind].
    rewrite Hs. intros H. rewrite (IH _ H), keys_dict_set_order.
    reflexivity.
Qed.

Lemma score_table_keys {R : Runtime}
    (self : TextSummarizer) (text : str) (d : dict Z) :
  sentence_scores_of self text = Ok d ->
  keys d = first_occurrences (simple_sentence_tokenize text).
Proof.
  intros E. unfold sentence_scores_of, score_sentences in E.
  apply score_sentences_keys in E; [exact E|].
  apply Forall_forall. intros s Hs. apply (sentences_truthy text s Hs).
Qed.

Lemma score_table_size {R : Runtime}
    (self : TextSummarizer) (text : str) (d : dict Z) :
  sentence_scores_of self text = Ok d ->
  (len d <= len (simple_sentence_tokenize text))%Z.
Proof.
  intros E. destruct (sentence_scores_spec self text) as [d' [E' [Hnd [Hk _]]]].
  assert (d' = d) by congruence. subst d'.
  unfold len. apply inj_le. rewrite <- (length_map fst d).
  apply NoDup_incl_length; [exact Hnd|]. intros k Hin. apply Hk, Hin.
Qed.

(** The score table holds the distinct sentences in the order in which each
    first occurs in the text. *)
Theorem score_table_in_document_order {R : Runtime}
    (self : TextSummarizer) (text : str) :
  exists sentence_scores,
    sentence_scores_of self text = Ok sentence_scores
    /\ keys sentence_scores
       = first_occurrences (simple_sentence_tokenize text)
    /\ NoDup (keys sentence_scores)
    /\ (len (keys sentence_scores) <= len (simple_sentence_tokenize text))%Z.
Proof.
  destruct (sentence_scores_spec self text) as [d [E [Hnd _]]].
  exists d. split; [exact E|].
  split; [exact (score_table_keys self text d E)|].
  split; [exact Hnd|]. unfold keys, len. rewrite length_map.
  apply (score_table_size self text d E).
Qed.

Lemma strongly_sorted_app {A} (before_ : A -> A -> Prop) (a b : list A) :
  StronglySorted before_ (a ++ b) ->
  Forall (fun x => Forall (before_ x) b) a.
Proof.
  induction a as [|x a IH]; cbn [app]; intros H; [constructor|].
  inversion H as [|? ? Hs Hx]; subst. constructor; [|apply IH, Hs].
  apply Forall_app in Hx. apply Hx.
Qed.

(** The entries chosen at lines 115-117 are the best scored: together with
    the entries left out they make up the score table, and no entry left out
    scores higher than a chosen one. *)
Theorem summary_takes_highest_scores {R : Runtime}
    (self : TextSummarizer) (text : str) (n : Z) :
  exists sentence_scores chosen left_out,
    sentence_scores_of self text = Ok sentence_scores
    /\ summary_sentences self text n = Ok chosen
    /\ Permutation (chosen ++ left_out) (items sentence_scores)
    /\ Forall (fun x => Forall (fun y => (snd y <= snd x)%Z) left_out) chosen.
Proof.
  destruct (ordered_summary_spec self text n)
    as [d [_ [_ [Ed [_ [Es _]]]]]].
  destruct (slice_to_prefix (sorted snd true (items d)) n) as [rest Hrest].
  exists d, (slice_to (sorted snd true (items d)) n), rest.
  split; [exact Ed|]. split; [exact Es|]. split.
  - rewrite <- Hrest. apply sorted_perm.
  - pose proof (sorted_ordered snd true (items d)) as Hs.
    rewrite Hrest in Hs. apply strongly_sorted_app in Hs.
    rewrite Forall_forall in *. intros x Hx. specialize (Hs x Hx).
    rewrite Forall_forall in *. intros y Hy. specialize (Hs y Hy).
    unfold before, goes_first in Hs. apply Z.leb_le, Hs.
Qed.

Lemma insert_sorted_filter {A} (key : A -> Z) (reverse : bool) (k : Z)
    (x : A) (l : list A) :
  filter (fun e => (key e =? k)%Z) (insert_sorted key reverse x l)
  = filter (fun e => (key e =? k)%Z) (x :: l).
Proof.
  induction l as [|y l IH]; [reflexivity|]. cbn [insert_sorted].
  destruct (goes_first key reverse x y) eqn:E; [reflexivity|].
  cbn [filter] in *. rewrite IH.
  assert (Hne : key x <> key y).
  { unfold goes_first in E. destruct reverse; apply Z.leb_gt in E; lia. }
  destruct (Z.eqb_spec (key x) k), (Z.eqb_spec (key y) k);
    try reflexivity. congruence.
Qed.

Lemma sorted_filter {A} (key : A -> Z) (reverse : bool) (k : Z) (l : list A) :
  filter (fun e => (key e =? k)%Z) (sorted key reverse l)
  = filter (fun e => (key e =? k)%Z) l.
Proof.
  induction l as [|x l IH]; [reflexivity|]. cbn [sorted].
  rewrite insert_sorted_filter. cbn [filter]. rewrite IH. reflexivity.
Qed.

(** Ties are settled by position: in the ranking from which the summary is
    cut, the entries that share a score stand in the order they have in the
    score table, that is, by first occurrence in the text. *)
Theorem ranking_keeps_ties_in_order {R : Runtime}
    (self : TextSummarizer) (text : str) (n score : Z) :
  exists sentence_scores,
    sentence_scores_of self text = Ok sentence_scores
    /\ summary_sentences self text n
       = Ok (slice_to (sorted snd true (items sentence_scores)) n)
    /\ filter (fun entry => (snd entry =? score)%Z)
              (sorted snd true (items sentence_scores))
       = filter (fun entry => (snd entry =? score)%Z) (items sentence_scores)
    /\ keys sentence_scores
       = first_occurrences (simple_sentence_tokenize text).
Proof.
  destruct (ordered_summary_spec self text n)
    as [d [_ [_ [Ed [_ [Es _]]]]]].
  exists d. split; [exact Ed|]. split; [exact Es|].
  split; [apply sorted_filter | exact (score_table_keys self text d Ed)].
Qed.

(* ================================================================== *)
(** ** The summary *)

Lemma sentences_clean (text : str) :
  Forall (fun s => clean_sentence s = true) (simple_sentence_tokenize text).
Proof.
  apply Forall_forall. intros s Hs. unfold simple_sentence_tokenize in Hs.
  apply in_map_iff in Hs as [f [<- Hf]]. apply filter_In in Hf as [Hf Ht].
  destruct (strip_decomp f) as [p [q [E _]]].
  destruct (re_split_from_infix false (sub_ws text) f Hf) as [p' [q' E']].
  assert (Hsub : forall c, In c (strip f) -> In c (sub_ws text)).
  { intros c Hc. rewrite E', E. apply in_or_app; right. apply in_or_app; left.
    apply in_or_app; right. apply in_or_app; left. exact Hc. }
  unfold clean_sentence. rewrite Ht, strip_starts, strip_ends. cbn [negb andb].
  rewrite !andb_true_iff, negb_true_iff. repeat split.
  - pose proof (re_split_from_fragments false (sub_ws text)) as Hall.
    rewrite Forall_forall in Hall. specialize (Hall f Hf).
    rewrite E in Hall. apply forallb_infix in Hall. exact Hall.
  - apply forallb_forall. intros c Hc.
    apply Hsub, sub_ws_from_chars in Hc as [-> | [_ Hn]]; [reflexivity|].
    unfold nonspace. rewrite Hn. reflexivity.
  - apply double_space_strip.
    pose proof (proj2 (sub_ws_from_runs false text)) as Hd.
    fold (sub_ws text) in Hd. rewrite E' in Hd.
    apply double_space_app in Hd as [_ Hd].
    apply double_space_app in Hd as [Hd _]. exact Hd.
Qed.

(** The sentences of the summary: distinct, all taken from the sentence
    list, and as many as the slice of the ranking has entries. *)
Lemma ordered_summary_members {R : Runtime}
    (self : TextSummarizer) (text : str) (n : Z) :
  exists d ordered,
    sentence_scores_of self text = Ok d
    /\ ordered_summary self text n = Ok ordered
    /\ Permutation ordered (map fst (slice_to (sorted snd true (items d)) n))
    /\ NoDup ordered
    /\ incl ordered (simple_sentence_tokenize text).
Proof.
  destruct (ordered_summary_spec self text n)
    as [d [ordered [ps [Ed [Hkeys [_ [Eo [Hperm _]]]]]]]].
  destruct (sentence_scores_spec self text) as [d' [Ed' [Hnd _]]].
  assert (d' = d) by congruence. subst d'.
  destruct (slice_to_prefix (sorted snd true (items d)) n) as [rest Hrest].
  assert (Hrank : Permutation (map fst (sorted snd true (items d))) (keys d)).
  { apply Permutation_map, sorted_perm. }
  exists d, ordered. split; [exact Ed|]. split; [exact Eo|].
  split; [exact Hperm|]. split.
  - apply (Permutation_NoDup (Permutation_sym Hperm)).
    apply (Permutation_NoDup (Permutation_sym Hrank)) in Hnd.
    rewrite Hrest, map_app in Hnd. apply (NoDup_app_remove_r _ _ Hnd).
  - intros s Hs. apply Hkeys, (Permutation_in _ Hrank).
    rewrite Hrest, map_app. apply in_or_app; left.
    apply (Permutation_in _ Hperm), Hs.
Qed.

Lemma len_slice_to {A} (l : list A) (n : Z) :
  len (slice_to l n)
  = if (n <? 0)%Z then Z.max 0 (len l + n) else Z.min n (len l).
Proof.
  unfold slice_to, len. destruct (Z.ltb_spec n 0); rewrite length_firstn; lia.
Qed.

(** The summary never has more sentences than asked for, nor more than the
    text has distinct sentences, and none twice: for [n >= 0] it has
    [min n k] sentences, [k] the number of distinct sentences, and for
    [n < 0] it has [max 0 (k + n)]; each is a sentence of the text. *)
Theorem summary_size {R : Runtime}
    (self : TextSummarizer) (text : str) (n : Z) :
  exists sentence_scores ordered,
    sentence_scores_of self text = Ok sentence_scores
    /\ ordered_summary self text n = Ok ordered
    /\ len ordered
       = (if (n <? 0)%Z then Z.max 0 (len sentence_scores + n)
          else Z.min n (len sentence_scores))
    /\ (len sentence_scores <= len (simple_sentence_tokenize text))%Z
    /\ NoDup ordered
    /\ incl ordered (simple_sentence_tokenize text).
Proof.
  destruct (ordered_summary_members self text n)
    as [d [ordered [Ed [Eo [Hperm [Hnd Hincl]]]]]].
  exists d, ordered. split; [exact Ed|]. split; [exact Eo|].
  split; [|split; [exact (score_table_size self text d Ed) | auto]].
  assert (Hlen : len ordered = len (slice_to (sorted snd true (items d)) n)).
  { unfold len. rewrite (Permutation_length Hperm), length_map. reflexivity. }
  assert (Hall : len (sorted snd true (items d)) = len d).
  { unfold len, items.
    rewrite (Permutation_length (sorted_perm snd true d)). reflexivity. }
  rewrite Hlen, len_slice_to, Hall. reflexivity.
Qed.

(** A request for no sentence is not refused: with ten words or more and at
    least one sentence, [n = 0] gives the empty string. *)
Theorem zero_sentences_gives_empty_string {R : Runtime}
    (self : TextSummarizer) (text : str) :
  (10 <= len (split text))%Z ->
  simple_sentence_tokenize text <> [] ->
  extractive_summarize self text 0 = [].
Proof.
  intros Hw Hne.
  destruct (ordered_summary_members self text 0)
    as [d [ordered [_ [Eo [Hperm _]]]]].
  assert (Hn : (0 < len (simple_sentence_tokenize text))%Z).
  { unfold len. destruct (simple_sentence_tokenize text);
      [congruence | cbn [length]; lia]. }
  rewrite (extractive_summarize_selects self text 0 ordered Hw Hn Eo).
  cbn [slice_to Z.ltb Z.compare Z.to_nat firstn map] in Hperm.
  apply Permutation_sym, Permutation_nil in Hperm. subst. reflexivity.
Qed.

Lemma zero_sentences_gives_empty_string_witness :
  (10 <= len (split cats))%Z
  /\ simple_sentence_tokenize cats <> []
  /\ extractive_summarize demo cats 0 = [].
Proof.
  split; [discriminate|]. split; [discriminate|].
  apply (@zero_sentences_gives_empty_string ascii_runtime demo cats);
    discriminate.
Defined.

Lemma ends_with_space_app (a b : str) :
  b <> [] -> ends_with_space (a ++ b) = ends_with_space b.
Proof.
  intros Hb. unfold ends_with_space. rewrite rev_app_distr.
  apply starts_with_space_app. intros H. apply Hb.
  rewrite <- (rev_involutive b), H. reflexivity.
Qed.

Lemma double_space_after_word (a b : str) :
  double_space a = false -> double_space b = false ->
  ends_with_space a = false ->
  double_space (a ++ b) = false.
Proof.
  intros Ha Hb He. induction a as [|c a IH]; [exact Hb|].
  pose proof (double_space_tail c a Ha) as Ha'.
  destruct a as [|c' a'].
  - cbn [app]. apply double_space_after; [left | exact Hb].
    apply N.eqb_neq, nonspace_not_SPACE. exact He.
  - cbn [app] in *. rewrite double_space_cons2 in *.
    apply orb_false_iff in Ha as [Hcc _]. rewrite Hcc. cbn [orb].
    apply IH; [exact Ha'|].
    rewrite <- He. symmetry.
    exact (ends_with_space_app [c] (c' :: a') ltac:(discriminate)).
Qed.

Lemma joined_summary (s : str) (l : list str) :
  Forall (fun s => clean_sentence s = true) (s :: l) ->
  clean_sentence (join [SPACE] (s :: l)) = true.
Proof.
  revert s; induction l as [|s' l IH]; intros s Hall;
    inversion Hall as [|? ? Hs Hl]; subst; [exact Hs|].
  specialize (IH s' Hl).
  set (rest := join [SPACE] (s' :: l)) in *.
  change (join [SPACE] (s :: s' :: l)) with (s ++ SPACE :: rest).
  apply clean_sentence_spec in Hs as [Hne [Hst [Hen [Hnt [Hpl Hds]]]]].
  apply clean_sentence_spec in IH as [Tne [Tst [Ten [Tnt [Tpl Tds]]]]].
  unfold clean_sentence. rewrite !andb_true_iff, !negb_true_iff.
  repeat split.
  - destruct s; [congruence | reflexivity].
  - rewrite starts_with_space_app; assumption.
  - rewrite (ends_with_space_app s (SPACE :: rest)) by discriminate.
    rewrite <- Ten. exact (ends_with_space_app [SPACE] rest Tne).
  - rewrite forallb_app, Hnt. cbn [forallb]. rewrite Tnt. reflexivity.
  - rewrite plain_spaced_app, Hpl. unfold plain_spaced. cbn [forallb].
    fold (plain_spaced rest). rewrite Tpl. reflexivity.
  - apply double_space_after_word; [assumption | | assumption].
    apply double_space_after; [right; exact Tst | exact Tds].
Qed.

Lemma selected_summary_clean {R : Runtime}
    (self : TextSummarizer) (text : str) (n : Z) :
  (10 <= len (split text))%Z ->
  (n < len (simple_sentence_tokenize text))%Z ->
  extractive_summarize self text n = []
  \/ clean_sentence (extractive_summarize self text n) = true.
Proof.
  intros Hw Hn.
  destruct (ordered_summary_members self text n)
    as [d [ordered [_ [Eo [_ [_ Hincl]]]]]].
  rewrite (extractive_summarize_selects self text n ordered Hw Hn Eo).
  destruct ordered as [|s l]; [left; reflexivity|]. right.
  change (lit " ") with [SPACE]. apply joined_summary.
  pose proof (sentences_clean text) as Hall. rewrite Forall_forall in *.
  intros x Hx. apply Hall, Hincl, Hx.
Qed.

(** When sentences are selected, the summary is empty or reads as one clean
    sentence: no '.', '!' or '?' in it (the terminators of the text are
    gone), single plain spaces only, none at either end. *)
Theorem selected_summary_has_no_terminator {R : Runtime}
    (self : TextSummarizer) (text : str) (n : Z) :
  (10 <= len (split text))%Z ->
  (n < len (simple_sentence_tokenize text))%Z ->
  forallb nonterminator (extractive_summarize self text n) = true
  /\ plain_spaced (extractive_summarize self text n) = true
  /\ double_space (extractive_summarize self text n) = false
  /\ starts_with_space (extractive_summarize self text n) = false
  /\ ends_with_space (extractive_summarize self text n) = false.
Proof.
  intros Hw Hn.
  destruct (selected_summary_clean self text n Hw Hn) as [-> | H].
  - repeat split; reflexivity.
  - apply clean_sentence_spec in H. tauto.
Qed.

Lemma selected_summary_has_no_terminator_witness :
  (10 <= len (split cats))%Z
  /\ (2 < len (simple_sentence_tokenize cats))%Z
  /\ forallb nonterminator (extractive_summarize demo cats 2) = true.
Proof.
  split; [discriminate|]. split; [reflexivity|].
  apply (@selected_summary_has_no_terminator ascii_runtime demo cats 2);
    [discriminate | reflexivity].
Defined.

(** Summarizing a summary: a summary made by selection has no terminator
    left, so it counts as one sentence; asked again for one sentence or more
    the summarizer gives it back unchanged, or the fixed message when it has
    fewer than ten words. *)
Theorem summarizing_a_summary {R : Runtime}
    (self : TextSummarizer) (text : str) (n m : Z) :
  (10 <= len (split text))%Z ->
  (n < len (simple_sentence_tokenize text))%Z ->
  (1 <= m)%Z ->
  extractive_summarize self (extractive_summarize self text n) m
  = if too_short (extractive_summarize self text n)
    then lit "Text is too short to summarize."
    else extractive_summarize self text n.
Proof.
  intros Hw Hn Hm.
  assert (Hnt : forallb nonterminator (extractive_summarize self text n)
                = true).
  { destruct (selected_summary_clean self text n Hw Hn) as [-> | H];
      [reflexivity | apply clean_sentence_spec in H; tauto]. }
  set (out := extractive_summarize self text n) in *.
  unfold extractive_summarize, extractive_try.
  destruct (too_short out); [reflexivity|].
  rewrite (tokenize_plain out Hnt). cbn [filter].
  assert (Hle : (len (map strip (if truthy (strip (sub_ws out))
                                 then [sub_ws out] else [])) <=? m)%Z = true).
  { apply Z.leb_le. unfold len.
    destruct (truthy (strip (sub_ws out))); cbn [map length]; lia. }
  rewrite Hle. reflexivity.
Qed.

Lemma summarizing_a_summary_witness :
  (10 <= len (split cats))%Z
  /\ (2 < len (simple_sentence_tokenize cats))%Z
  /\ (1 <= 3)%Z
  /\ extractive_summarize demo (extractive_summarize demo cats 2) 3
     = if too_short (extractive_summarize demo cats 2)
       then lit "Text is too short to summarize."
       else extractive_summarize demo cats 2.
Proof.
  split; [discriminate|]. split; [reflexivity|]. split; [discriminate|].
  apply (@summarizing_a_summary ascii_runtime demo cats 2 3);
    [discriminate | reflexivity | discriminate].
Defined.

(** The fixed message is an unambiguous signal: [extractive_summarize]
    returns "Text is too short to summarize." exactly when the text has
    fewer than ten whitespace-separated words. *)
Theorem fallback_only_for_short_text {R : Runtime}
    (self : TextSummarizer) (text : str) (n : Z) :
  extractive_summarize self text n = lit "Text is too short to summarize."
  <-> (len (split text) < 10)%Z.
Proof.
  split.
  - intros Hout. destruct (Z.lt_ge_cases (len (split text)) 10) as [|Hw];
      [assumption | exfalso].
    destruct (Z.le_gt_cases (len (simple_sentence_tokenize text)) n)
      as [Hall | Hsel].
    + rewrite (extractive_summarize_whole_text self text n Hw Hall) in Hout.
      rewrite Hout in Hw. vm_compute in Hw. apply Hw. reflexivity.
    + destruct (selected_summary_clean self text n Hw Hsel) as [E | E];
        rewrite Hout in E; vm_compute in E; discriminate E.
  - intros Hw. apply too_short_few_words in Hw.
    unfold extractive_summarize, extractive_try. rewrite Hw. reflexivity.
Qed.

(* ================================================================== *)
(** ** The preprocessor, applied again *)

Lemma preprocess_chars {R : Runtime} (self : TextSummarizer) (text : str) :
  forallb keeps (preprocess_text self text) = true
  /\ plain_spaced (preprocess_text self text) = true.
Proof.
  unfold preprocess_text, plain_spaced. rewrite !forallb_forall.
  assert (Hin : forall c, In c (strip (sub_noise (sub_ws text))) ->
                  keeps c = true /\ In c (sub_ws text)).
  { intros c Hc.
    destruct (strip_decomp (sub_noise (sub_ws text))) as [p [q [E _]]].
    assert (H : In c (sub_noise (sub_ws text))).
    { rewrite E. apply in_or_app; right. apply in_or_app; left. exact Hc. }
    unfold sub_noise in H. apply filter_In in H. tauto. }
  split; intros c Hc; destruct (Hin c Hc) as [Hk Hs]; [exact Hk|].
  apply sub_ws_from_chars in Hs as [-> | [_ Hn]]; [reflexivity|].
  unfold nonspace. rewrite Hn. reflexivity.
Qed.

Lemma preprocess_of_kept {R : Runtime} (self : TextSummarizer) (text : str) :
  forallb keeps text = true -> clean_text (preprocess_text self text) = true.
Proof.
  intros Hk. destruct (preprocess_chars self text) as [H1 H2].
  unfold clean_text. rewrite H1, H2. cbn [andb].
  unfold preprocess_text. rewrite strip_starts, strip_ends.
  rewrite (sub_noise_fixed text Hk).
  rewrite double_space_strip; [reflexivity|].
  apply (sub_ws_from_runs false text).
Qed.

Lemma preprocess_clean_fixed {R : Runtime} (self : TextSummarizer) (text : str) :
  clean_text text = true -> preprocess_text self text = text.
Proof.
  unfold clean_text. rewrite !andb_true_iff, !negb_true_iff.
  intros [[[[Hk Hp] Hd] Hs] He]. unfold preprocess_text.
  rewrite (sub_noise_fixed text Hk). unfold sub_ws.
  rewrite sub_ws_from_fixed by (auto; discriminate).
  apply strip_fixed; assumption.
Qed.

(** On a text that is already clean (permitted characters only, single plain
    spaces, none at either end) [preprocess_text] changes nothing. *)
Theorem preprocess_text_fixed_on_clean_text {R : Runtime}
    (self : TextSummarizer) (text : str) :
  clean_text text = true -> preprocess_text self text = text.
Proof.
  intros H. unfold clean_text in H.
  rewrite !andb_true_iff, !negb_true_iff in H.
  destruct H as [[[[Hkept Hplain] Hsingle] Hstart] Hend].
  unfold preprocess_text.
  rewrite (sub_noise_fixed text Hkept). unfold sub_ws.
  rewrite sub_ws_from_fixed by (auto; discriminate).
  exact (strip_fixed text Hstart Hend).
Qed.

Lemma preprocess_text_fixed_on_clean_text_witness :
  @clean_text ascii_runtime (lit "Hello world. It_is fine.") = true
  /\ preprocess_text demo (lit "Hello world. It_is fine.")
     = lit "Hello world. It_is fine.".
Proof.
  split; [reflexivity|].
  exact (@preprocess_text_fixed_on_clean_text ascii_runtime demo
           (lit "Hello world. It_is fine.") eq_refl).
Defined.

(** One pass of [preprocess_text] can leave two spaces side by side, a
    second pass cannot: the result of the second pass is clean, and every
    further pass returns it unchanged. *)
Theorem preprocess_text_settles_after_two_passes {R : Runtime}
    (self : TextSummarizer) (text : str) :
  clean_text (preprocess_text self (preprocess_text self text)) = true
  /\ double_space (preprocess_text self (preprocess_text self text)) = false
  /\ preprocess_text self
       (preprocess_text self (preprocess_text self text))
     = preprocess_text self (preprocess_text self text).
Proof.
  assert (Hclean : clean_text (preprocess_text self
                                 (preprocess_text self text)) = true).
  { apply preprocess_of_kept. apply (preprocess_chars self text). }
  split; [exact Hclean|]. split; [|apply preprocess_clean_fixed, Hclean].
  unfold clean_text in Hclean.
  rewrite !andb_true_iff, !negb_true_iff in Hclean. tauto.
Qed.

(** Given that '!' and '?' are not alphanumeric (as in Unicode),
    [preprocess_text] deletes them: the only terminator left in its result
    is the period, so text that went through it is cut into sentences at
    periods only. *)
Theorem preprocess_text_keeps_only_periods {R : Runtime}
    (self : TextSummarizer) (text : str) :
  isalnum 33%N = false -> isalnum 63%N = false ->
  forallb (fun c => nonterminator c || N.eqb c PERIOD)
          (preprocess_text self text) = true.
Proof.
  intros Hbang Hquest. destruct (preprocess_chars self text) as [Hk _].
  rewrite forallb_forall in *. intros c Hc. specialize (Hk c Hc).
  unfold nonterminator. destruct (is_terminator c) eqn:Et; [|reflexivity].
  cbn [negb orb]. unfold is_terminator in Et.
  rewrite !orb_true_iff, !N.eqb_eq in Et.
  destruct Et as [[-> | ->] | ->]; [reflexivity | exfalso | exfalso];
    unfold keeps, is_word in Hk.
  - rewrite Hbang in Hk. discriminate Hk.
  - rewrite Hquest in Hk. discriminate Hk.
Qed.

Lemma preprocess_text_keeps_only_periods_witness :
  forallb (fun c => nonterminator c || N.eqb c PERIOD)
          (preprocess_text demo (lit "Really?! Yes. No way!")) = true.
Proof.
  exact (@preprocess_text_keeps_only_periods ascii_runtime demo
           (lit "Really?! Yes. No way!") eq_refl eq_refl).
Defined.

(* ================================================================== *)
(** ** Counting words *)

Lemma word_starts_cons (b : bool) (c : char) (s : str) :
  word_starts b (c :: s)
  = (if isspace c then 0 else if b then 1 else 0)
    + word_starts (isspace c) s.
Proof.
  cbn [word_starts]. unfold nonspace. destruct (isspace c), b; reflexivity.
Qed.

Lemma word_starts_flag (s : str) :
  word_starts false s <= word_starts true s <= 1 + word_starts false s.
Proof.
  destruct s as [|c s]; [cbn; lia|]. rewrite !word_starts_cons.
  destruct (isspace c); lia.
Qed.

Lemma split_length (s : str) : length (split s) = word_starts true s.
Proof.
  induction s as [|c rest IH]; [reflexivity|].
  rewrite split_cons, word_starts_cons.
  destruct (isspace c) eqn:Hc; [exact IH|].
  destruct rest as [|d rest']; [reflexivity|].
  rewrite word_starts_cons in *.
  destruct (isspace d) eqn:Hd.
  - cbn [length]. rewrite IH. lia.
  - destruct (split (d :: rest')) as [|w ws]; cbn [length] in *; lia.
Qed.

Lemma word_starts_filter (p : char -> bool) (b : bool) (s : str) :
  (forall c, isspace c = true -> p c = true) ->
  word_starts b (filter p s) <= word_starts b s.
Proof.
  intros Hp. revert b; induction s as [|c s IH]; intros b; [reflexivity|].
  cbn [filter]. rewrite word_starts_cons. destruct (p c) eqn:Epc.
  - rewrite word_starts_cons. specialize (IH (isspace c)). lia.
  - assert (Hc : isspace c = false).
    { destruct (isspace c) eqn:E; [rewrite (Hp c E) in Epc; discriminate|].
      reflexivity. }
    rewrite Hc. pose proof (IH b). pose proof (word_starts_flag s).
    destruct b; lia.
Qed.

Lemma word_starts_sub_ws (r b : bool) (s : str) :
  (r = true -> b = true) ->
  word_starts b (sub_ws_from r s) = word_starts b s.
Proof.
  revert r b; induction s as [|c s IH]; intros r b Hrb; [reflexivity|].
  cbn [sub_ws_from]. rewrite (word_starts_cons b c s).
  destruct (isspace c) eqn:Hc.
  - destruct r.
    + rewrite (Hrb eq_refl). apply IH; auto.
    + rewrite word_starts_cons, space_is_space. f_equal. apply IH; auto.
  - rewrite word_starts_cons, Hc. f_equal. apply IH. discriminate.
Qed.

Lemma word_starts_trailing (b : bool) (u q : str) :
  forallb isspace q = true -> word_starts b (u ++ q) = word_starts b u.
Proof.
  intros Hq. revert b; induction u as [|c u IH]; intros b.
  - cbn [app]. clear - Hq. revert b.
    induction q as [|c q IH]; intros b; [reflexivity|].
    cbn [forallb] in Hq. apply andb_true_iff in Hq as [Hc Hq].
    rewrite word_starts_cons, Hc, (IH Hq true). reflexivity.
  - cbn [app]. rewrite !word_starts_cons, IH. reflexivity.
Qed.

Lemma word_starts_leading (p u : str) :
  forallb isspace p = true -> word_starts true (p ++ u) = word_starts true u.
Proof.
  induction p as [|c p IH]; [reflexivity|]. cbn [forallb].
  rewrite andb_true_iff. intros [Hc Hp]. cbn [app].
  rewrite word_starts_cons, Hc. apply IH, Hp.
Qed.

Lemma word_starts_strip (s : str) :
  word_starts true (strip s) = word_starts true s.
Proof.
  destruct (strip_decomp s) as [p [q [E [Hp Hq]]]]. rewrite E at 2.
  rewrite (word_starts_leading p _ Hp), (word_starts_trailing _ _ q Hq).
  reflexivity.
Qed.

Lemma preprocess_word_starts {R : Runtime}
    (self : TextSummarizer) (text : str) :
  word_starts true (preprocess_text self text) <= word_starts true text.
Proof.
  unfold preprocess_text. rewrite word_starts_strip. unfold sub_noise.
  transitivity (word_starts true (sub_ws text)).
  - apply word_starts_filter. intros c Hc. unfold keeps.
    rewrite Hc, orb_true_r. reflexivity.
  - unfold sub_ws. rewrite word_starts_sub_ws; [reflexivity | discriminate].
Qed.

(** Preprocessing never adds a word: the preprocessed text has at most as
    many whitespace-separated words as the raw text, so a raw text under ten
    words is still under ten words when it reaches the summarizers. *)
Theorem preprocess_text_never_adds_words {R : Runtime}
    (self : TextSummarizer) (text : str) :
  (len (split (preprocess_text self text)) <= len (split text))%Z.
Proof.
  unfold len. apply inj_le. rewrite !split_length.
  apply preprocess_word_starts.
Qed.

(* ================================================================== *)
(** ** The abstractive path *)

Lemma prompt_of_frame :
  exists before_ after_ : str, forall t, prompt_of t = before_ ++ t ++ after_.
Proof.
  unfold prompt_of. cbv zeta.
  set (opening := lit "Please provide a concise summary of the following text. ").
  set (advice := lit "Focus on the main points and key insights while maintaining clarity and coherence:").
  set (indent := lit "            ").
  set (closing := lit "Summary:").
  exists (opening ++ [NEWLINE] ++ indent ++ advice ++ [NEWLINE] ++ indent
          ++ [NEWLINE] ++ indent),
         ([NEWLINE] ++ indent ++ [NEWLINE] ++ indent ++ closing).
  intros t. rewrite <- !app_assoc. reflexivity.
Qed.

(** With ten words or more the hosted model is asked once, with a prompt
    that holds the text verbatim between a fixed opening and a fixed ending
    (so different texts give different prompts); its reply is returned as it
    is, and whatever the call raises comes back as a string that starts with
    "Error in abstractive summarization: ". *)
Theorem abstractive_summarize_passes_reply {R : Runtime}
    (self : TextSummarizer) (text : str) :
  (10 <= len (split text))%Z ->
  abstractive_summarize self text
  = match groq_client self (prompt_of text) with
    | Ok reply => reply
    | Raise e => lit "Error in abstractive summarization: " ++ exn_str e
    end
  /\ (exists before_ after_ : str,
         forall t, prompt_of t = before_ ++ t ++ after_)
  /\ (forall other, prompt_of other = prompt_of text -> other = text).
Proof.
  intros Hw. split; [|split].
  - unfold abstractive_summarize.
    rewrite (too_short_enough_words text Hw). reflexivity.
  - exact prompt_of_frame.
  - destruct prompt_of_frame as [before_ [after_ Hframe]].
    intros other H. rewrite !Hframe in H.
    apply app_inv_head in H. apply app_inv_tail in H. exact H.
Qed.

Lemma abstractive_summarize_passes_reply_witness :
  (10 <= len (split cats))%Z
  /\ abstractive_summarize demo_shuffled cats = prompt_of cats
  /\ abstractive_summarize demo cats
     = lit "Error in abstractive summarization: Connection error.".
Proof.
  split; [discriminate|]. split.
  - exact (proj1 (@abstractive_summarize_passes_reply ascii_runtime
                    demo_shuffled cats ltac:(discriminate))).
  - exact (proj1 (@abstractive_summarize_passes_reply ascii_runtime
                    demo cats ltac:(discriminate))).
Defined.

(* ================================================================== *)
(** ** The page *)

(** Pressing the button with an empty text area draws only the request for
    text.  With a text area that is not empty but holds fewer than ten words
    (blanks only, say), in each of the three modes of the radio button and
    with [num_sentences] as the sidebar leaves it for that mode, at least
    one summary box is drawn, every box shows the fixed message, and nothing
    raises: the words are counted after preprocessing, which never adds
    one. *)
Theorem page_rejects_short_input {R : Runtime}
    (groq_api_key text_input summary_type : str) (slider : Z) :
  truthy groq_api_key = true ->
  In summary_type [lit "Extractive"; lit "Abstractive"; lit "Both"] ->
  (len (split text_input) < 10)%Z ->
  generate groq_api_key [] summary_type
           (sidebar_num_sentences summary_type slider)
  = [StError ([128221%N] ++ lit " Please enter some text to summarize.")]
  /\ (truthy text_input = true ->
      snd (generate_try groq_api_key text_input summary_type
             (sidebar_num_sentences summary_type slider)) = None
      /\ written (generate groq_api_key text_input summary_type
                    (sidebar_num_sentences summary_type slider))
         <> []
      /\ Forall (fun summary => summary = lit "Text is too short to summarize.")
                (written (generate groq_api_key text_input summary_type
                            (sidebar_num_sentences summary_type slider)))).
Proof.
  intros Hkey Hmode Hw. unfold generate. rewrite Hkey. cbn [negb].
  split; [reflexivity|]. intros Htext. rewrite Htext. cbn [negb].
  set (summarizer := __init__ groq_api_key).
  assert (Hshort : too_short (preprocess_text summarizer text_input) = true).
  { apply too_short_few_words. unfold len in *.
    pose proof (preprocess_word_starts summarizer text_input).
    rewrite !split_length in *. lia. }
  assert (He : forall n, extractive_summarize summarizer
                 (preprocess_text summarizer text_input) n = TOO_SHORT).
  { intros n. unfold extractive_summarize, extractive_try.
    rewrite Hshort. reflexivity. }
  assert (Ha : abstractive_summarize summarizer
                 (preprocess_text summarizer text_input) = TOO_SHORT).
  { unfold abstractive_summarize. rewrite Hshort. reflexivity. }
  unfold generate_try. fold summarizer. rewrite Ha.
  destruct Hmode as [<- | [<- | [<- | []]]].
  - change (sidebar_num_sentences (lit "Extractive") slider)
      with (Some slider).
    change (str_eqb (lit "Extractive") (lit "Extractive")) with true.
    cbn [read_num_sentences bind draw_box]. rewrite He.
    cbn [snd summary_box written flat_map app].
    repeat split; [discriminate | repeat constructor].
  - change (str_eqb (lit "Abstractive") (lit "Extractive")) with false.
    change (str_eqb (lit "Abstractive") (lit "Abstractive")) with true.
    cbn [draw_box snd summary_box written flat_map app].
    repeat split; [discriminate | repeat constructor].
  - change (sidebar_num_sentences (lit "Both") slider) with (Some slider).
    change (str_eqb (lit "Both") (lit "Extractive")) with false.
    change (str_eqb (lit "Both") (lit "Abstractive")) with false.
    cbn [read_num_sentences bind draw_box]. rewrite He.
    cbn [snd summary_box written flat_map app].
    repeat split; [discriminate | repeat constructor].
Qed.

Lemma page_rejects_short_input_witness :
  truthy (lit "key") = true
  /\ In (lit "Both") [lit "Extractive"; lit "Abstractive"; lit "Both"]
  /\ (len (split (lit "   ")) < 10)%Z
  /\ truthy (lit "   ") = true
  /\ snd (generate_try (lit "key") (lit "   ") (lit "Both")
             (sidebar_num_sentences (lit "Both") 3)) = None
  /\ written (generate (lit "key") (lit "   ") (lit "Both")
                (sidebar_num_sentences (lit "Both") 3))
     <> []
  /\ Forall (fun summary => summary = lit "Text is too short to summarize.")
            (written (generate (lit "key") (lit "   ") (lit "Both")
                        (sidebar_num_sentences (lit "Both") 3))).
Proof.
  split; [reflexivity|].
  assert (Hmode : In (lit "Both")
                     [lit "Extractive"; lit "Abstractive"; lit "Both"])
    by (right; right; left; reflexivity).
  split; [exact Hmode|]. split; [reflexivity|]. split; [reflexivity|].
  exact (proj2 (@page_rejects_short_input ascii_runtime
                  (lit "key") (lit "   ") (lit "Both") 3
                  eq_refl Hmode eq_refl) eq_refl).
Defined.

(* ================================================================== *)
(** ** Counts the slider can give *)

Lemma join_nonempty (sep s : str) (l : list str) :
  s <> [] -> join sep (s :: l) <> [].
Proof.
  intros Hs. cbn [join]. destruct l; [exact Hs|].
  destruct s; [congruence | discriminate].
Qed.

(** With ten words or more and a count of at least one (the slider gives 1
    to 10) the extractive summary is never the empty string: it is the text
    itself or at least one of its sentences. *)
Theorem summary_not_empty {R : Runtime}
    (self : TextSummarizer) (text : str) (n : Z) :
  (10 <= len (split text))%Z ->
  (1 <= n)%Z ->
  extractive_summarize self text n <> []
  /\ (extractive_summarize self text n = text
      \/ exists s rest,
           In s (simple_sentence_tokenize text)
           /\ extractive_summarize self text n = join (lit " ") (s :: rest)).
Proof.
  intros Hw Hn.
  destruct (Z.le_gt_cases (len (simple_sentence_tokenize text)) n)
    as [Hall | Hsel].
  - rewrite (extractive_summarize_whole_text self text n Hw Hall).
    split; [|left; reflexivity]. intros ->. vm_compute in Hw.
    apply Hw. reflexivity.
  - destruct (ordered_summary_members self text n)
      as [d [ordered [Ed [Eo [Hperm [_ Hincl]]]]]].
    destruct (sentence_scores_spec self text) as [d' [Ed' [_ [Hkeys _]]]].
    assert (d' = d) by congruence. subst d'.
    rewrite (extractive_summarize_selects self text n ordered Hw Hsel Eo).
    assert (Hd : d <> []).
    { intros ->. destruct (simple_sentence_tokenize text) as [|s l] eqn:Es;
        [unfold len in Hsel; cbn [length] in Hsel; lia|].
      apply (proj2 (Hkeys s)). left; reflexivity. }
    assert (Hlen : (1 <= len ordered)%Z).
    { unfold len. rewrite (Permutation_length Hperm), length_map.
      fold (len (slice_to (sorted snd true (items d)) n)).
      rewrite len_slice_to. destruct (Z.ltb_spec n 0); [lia|].
      unfold len, items.
      rewrite (Permutation_length (sorted_perm snd true d)).
      destruct d; [congruence | cbn [length]; lia]. }
    destruct ordered as [|s rest]; [unfold len in Hlen; cbn in Hlen; lia|].
    assert (Hs : In s (simple_sentence_tokenize text))
      by (apply Hincl; left; reflexivity).
    split; [|right; exists s, rest; auto].
    apply join_nonempty.
    pose proof (sentences_clean text) as Hclean.
    rewrite Forall_forall in Hclean.
    apply Hclean, clean_sentence_spec in Hs. tauto.
Qed.

Lemma summary_not_empty_witness :
  (10 <= len (split cats))%Z
  /\ (1 <= 1)%Z
  /\ extractive_summarize demo cats 1 <> [].
Proof.
  split; [discriminate|]. split; [discriminate|].
  apply (@summary_not_empty ascii_runtime demo cats 1); discriminate.
Defined.
